(** * stack_pool: a pool of singly-linked stacks inside one std::vector

    Shallow embedding of [src/exam/stack_pool.hpp] and proofs of the
    properties its specification states.

    Modelling conventions.
    - The handle type [N] is taken at its default, [std::size_t], a 64-bit
      unsigned integer: handles are [Z] values in [0, 2^64) and every
      arithmetic step of the source on them is followed by [wrap].
    - [std::vector<node_t>] is a record of its elements and its capacity.
      The growth policy of [push_back] is implementation defined and is a
      parameter [grow] of the development; allocation never fails.
    - An access the C++ standard leaves undefined (an index outside the
      vector, a read through a reference that a reallocation of the vector
      has invalidated) has no result: the operation returns [None].
    - [_push] takes its argument by forwarding reference and reads it after
      [push_back]. [_push_ref] models the call for both kinds of argument, an
      object outside the vector and an element of the vector; [_push] is the
      case of an object outside the vector ([push_ref_run]).
    - The two loops of interest ([free_stack]'s walk to the tail, and a
      client's traversal with a cursor) take a bound on the number of
      iterations; hitting the bound also yields [None]. *)

From stdpp Require Import base numbers option list relations.

(** ** Handles *)

Definition modulus : Z := 2 ^ 64.

(** Conversion of an integer to [std::size_t]. *)
Definition wrap (z : Z) : Z := z `mod` modulus.

(** The values of type [stack_type]. *)
Definition is_handle (x : Z) : Prop := (0 ≤ x < modulus)%Z.

(** [stack_pool::end()], line 158: the sentinel. *)
Definition end_ : Z := 0.

(** [stack_pool::empty], line 152. *)
Definition empty (x : Z) : bool := bool_decide (x = end_).

(** [stack_pool::new_stack], line 129. *)
Definition new_stack : Z := end_.

(** libstdc++'s growth policy for [push_back] on a full vector, used to
    instantiate [grow] in the examples: the capacity doubles, and becomes 1
    when it was 0. *)
Definition grow_double (c : nat) : nat := c + Nat.max c 1.

Section StackPool.

(** The payload type, and the value a value-initialised [T] holds
    ([node_t()] at line 82). *)
Context {T : Type}.
Variable T_init : T.

(** Capacity of a vector after [push_back] had to reallocate, as a function
    of the capacity before. *)
Variable grow : nat → nat.

(** ** Nodes and the backing vector *)

(** [struct node_t], lines 64-67. *)
Record node_t := { value_ : T; next_ : Z }.

(** [std::vector<node_t>]: the elements, and [capacity()]. *)
Record vector := { elems : list node_t; cap : nat }.

(** [v[i]] for [i] of type [size_type]; out of range is undefined. The
    guard also keeps [Z.to_nat] away from indices near [2^64]. *)
Definition vec_at (v : vector) (i : Z) : option node_t :=
  if decide (0 ≤ i < Z.of_nat (length (elems v)))%Z
  then elems v !! Z.to_nat i else None.

(** [v[i] = n]. *)
Definition vec_set (v : vector) (i : Z) (n : node_t) : option vector :=
  if decide (0 ≤ i < Z.of_nat (length (elems v)))%Z
  then Some {| elems := <[Z.to_nat i := n]> (elems v); cap := cap v |}
  else None.

(** [v.push_back(n)]: the capacity changes only when the vector is full. *)
Definition vec_push_back (n : node_t) (v : vector) : vector :=
  {| elems := elems v ++ [n];
     cap := if decide (length (elems v) < cap v) then cap v
            else grow (cap v) |}.

(** [v.reserve(n)]: no effect unless [n] exceeds the capacity. *)
Definition vec_reserve (n : nat) (v : vector) : vector :=
  {| elems := elems v;
     cap := if decide (cap v < n) then n else cap v |}.

(** ** The pool *)

(** The data members of [stack_pool], lines 69 and 74. *)
Record stack_pool := { pool : vector; free_nodes : Z }.

(** The default constructor, line 101. *)
Definition stack_pool_new : stack_pool :=
  {| pool := {| elems := []; cap := 0 |}; free_nodes := end_ |}.

(** [capacity()], line 144. *)
Definition capacity (s : stack_pool) : nat := cap (pool s).

(** [pool.size()]. *)
Definition size (s : stack_pool) : nat := length (elems (pool s)).

(** [node(x)], lines 76-77: the element at index [x - 1], with the
    subtraction done in [std::size_t]. *)
Definition node (s : stack_pool) (x : Z) : option node_t :=
  vec_at (pool s) (wrap (x - 1)).

(** [value(x) const], line 172, and [next(x) const], line 186. *)
Definition value (s : stack_pool) (x : Z) : option T := value_ <$> node s x.
Definition next (s : stack_pool) (x : Z) : option Z := next_ <$> node s x.

(** Writing [n] through the reference [node(x)]. *)
Definition set_node (s : stack_pool) (x : Z) (n : node_t) : option stack_pool :=
  v ← vec_set (pool s) (wrap (x - 1)) n;
  Some {| pool := v; free_nodes := free_nodes s |}.

(** ** Member functions as state transformers

    A member function may read and write the pool and may have no defined
    result. *)
Definition M (A : Type) : Type := stack_pool → option (A * stack_pool).

#[export] Instance M_ret : MRet M := λ A a s, Some (a, s).
#[export] Instance M_bind : MBind M := λ A B k m s,
  match m s with
  | Some (a, s') => k a s'
  | None => None
  end.

(** Reading with a [const] accessor. *)
Definition read {A} (f : stack_pool → option A) : M A :=
  λ s, match f s with Some a => Some (a, s) | None => None end.

Definition get_free_nodes : M Z := λ s, Some (free_nodes s, s).
Definition set_free_nodes (x : Z) : M unit :=
  λ s, Some ((), {| pool := pool s; free_nodes := x |}).

(** [next(x) = y], through the reference of line 179. *)
Definition set_next (x y : Z) : M unit :=
  λ s, match node s x with
       | Some n =>
           s' ← set_node s x {| value_ := value_ n; next_ := y |};
           Some ((), s')
       | None => None
       end.

(** [value(x) = v], through the reference of line 165. *)
Definition set_value (x : Z) (v : T) : M unit :=
  λ s, match node s x with
       | Some n =>
           s' ← set_node s x {| value_ := v; next_ := next_ n |};
           Some ((), s')
       | None => None
       end.

Definition push_back (n : node_t) : M unit :=
  λ s, Some ((), {| pool := vec_push_back n (pool s);
                    free_nodes := free_nodes s |}).

(** [reserve(n)], line 138, for [n] up to the vector's [max_size()]; beyond
    it [std::vector::reserve] throws and leaves the vector as it was, which
    is not modelled. *)
Definition reserve (n : nat) : M unit :=
  λ s, Some ((), {| pool := vec_reserve n (pool s);
                    free_nodes := free_nodes s |}).

(** [_push], lines 79-93, for an argument [val] that refers to an object
    outside the pool's vector (a temporary, a local): reading it at line 90
    gives its value whatever [push_back] did. The general case is
    [_push_ref] below. *)
Definition _push (val : T) (head : Z) : M Z :=
  fn ← get_free_nodes;
  (if decide (fn = end_) then
     push_back {| value_ := T_init; next_ := end_ |};;
     sz ← read (λ s, Some (size s));
     set_free_nodes (wrap (Z.of_nat sz))
   else mret ());;
  new_head ← get_free_nodes;
  nx ← read (λ s, next s new_head);
  set_free_nodes nx;;
  set_next new_head head;;
  set_value new_head val;;
  mret new_head.

(** [push], lines 194 and 202: both overloads forward to [_push]. *)
Definition push (val : T) (head : Z) : M Z := _push val head.

(** What the reference [val] of [push] and [_push] refers to: an object
    outside the pool's vector that holds [v], or the value of the element
    [x] of the vector, as in [push(value(x), head)] through the [const T&]
    overload of line 194. *)
Inductive operand : Type :=
| Outside (v : T)
| Element (x : Z).

(** The value an argument refers to when the call is made; forming
    [value(x)] is line 165. *)
Definition denotes (s : stack_pool) (val : operand) : option T :=
  match val with
  | Outside v => Some v
  | Element x => value s x
  end.

(** [_push], lines 79-93, with the argument as the reference it is. The
    first step is the caller's: the argument is evaluated before the call,
    and [value(x)] is undefined where [x] designates no element.
    [push_back], line 84, reallocates when the vector is full, and then every
    reference to an element is invalid: reading [val] at line 90 is
    undefined if it refers to an element. Without a reallocation line 90
    reads the element as it is after line 89. *)
Definition _push_ref (val : operand) (head : Z) : M Z :=
  read (λ s, denotes s val);;
  fn ← get_free_nodes;
  reallocated ←
    (if decide (fn = end_) then
       full ← read (λ s, Some (bool_decide (¬ size s < capacity s)));
       push_back {| value_ := T_init; next_ := end_ |};;
       sz ← read (λ s, Some (size s));
       set_free_nodes (wrap (Z.of_nat sz));;
       mret full
     else mret false);
  new_head ← get_free_nodes;
  nx ← read (λ s, next s new_head);
  set_free_nodes nx;;
  set_next new_head head;;
  v ← match val with
      | Outside v => mret v
      | Element x =>
          if (reallocated : bool) then (λ _, None)
          else read (λ s, value s x)
      end;
  set_value new_head v;;
  mret new_head.

(** [push], lines 194 and 202, with the argument as a reference. *)
Definition push_ref (val : operand) (head : Z) : M Z := _push_ref val head.

(** The call reads an element of the vector after [push_back] has
    reallocated it: the free list is empty and the vector is full. *)
Definition dangling (s : stack_pool) (val : operand) : bool :=
  match val with
  | Outside _ => false
  | Element _ =>
      bool_decide (free_nodes s = end_) && bool_decide (¬ size s < capacity s)
  end.

(** [pop], lines 209-214. *)
Definition pop (head : Z) : M Z :=
  new_stack_head ← read (λ s, next s head);
  fn ← get_free_nodes;
  set_next head fn;;
  set_free_nodes head;;
  mret new_stack_head.

(** ** Cursors

    [_iterator], lines 5-58. [P] is the type of references to pools and
    [load] resolves a reference to the pool's current state. *)
Section Iterator.
Variable P : Type.
Variable load : P → option stack_pool.

(** The data members [head] and [pool], lines 11-12. *)
Record _iterator := { it_head : Z; it_pool : P }.

(** [operator=], lines 26-29: only [head] is assigned. *)
Definition assign (this a : _iterator) : _iterator :=
  {| it_head := it_head a; it_pool := it_pool this |}.

(** [operator*], lines 31-33. *)
Definition deref (this : _iterator) : option T :=
  s ← load (it_pool this); value s (it_head this).

(** [ptr_to_stack], line 50. *)
Definition ptr_to_stack (this : _iterator) : Z := it_head this.

(** Prefix [operator++], lines 39-42: the cursor after the step. *)
Definition incr (this : _iterator) : option _iterator :=
  s ← load (it_pool this);
  h ← next s (it_head this);
  Some {| it_head := h; it_pool := it_pool this |}.

(** Postfix [operator++], lines 44-48: the copy that is returned, and the
    cursor after the step. *)
Definition post_incr (this : _iterator) : option (_iterator * _iterator) :=
  let tmp := this in
  this' ← incr this;
  Some (tmp, this').

(** [operator==] and [operator!=], lines 52-57. *)
Definition iter_eq (a b : _iterator) : bool :=
  bool_decide (it_head a = it_head b).
Definition iter_neq (a b : _iterator) : bool := negb (iter_eq a b).

(** [begin(x)] and [end(x)] of the pool referenced by [p], lines 115-122. *)
Definition begin (p : P) (x : Z) : _iterator :=
  {| it_head := x; it_pool := p |}.
Definition end_of (p : P) (x : Z) : _iterator :=
  {| it_head := end_; it_pool := p |}.

(** A client's loop
    [for (auto it = first; it != last; ++it) out.push_back( *it);]. *)
Fixpoint traverse (fuel : nat) (it last : _iterator) : option (list T) :=
  if iter_neq it last then
    match fuel with
    | O => None
    | S fuel' =>
        v ← deref it;
        it' ← incr it;
        vs ← traverse fuel' it' last;
        Some (v :: vs)
    end
  else Some [].
End Iterator.

Arguments it_head {P} _.
Arguments it_pool {P} _.
Arguments assign {P} this a.
Arguments deref {P} load this.
Arguments ptr_to_stack {P} this.
Arguments incr {P} load this.
Arguments post_incr {P} load this.
Arguments iter_eq {P} a b.
Arguments iter_neq {P} a b.
Arguments begin {P} p x.
Arguments end_of {P} p x.
Arguments traverse {P} load fuel it last.

(** Inside a member function the cursors made by [begin] and [end] are
    bound to [*this]. *)
Inductive self : Type := this.
Definition load_self (s : stack_pool) : self → option stack_pool :=
  λ _, Some s.

(** The loop of line 226: [while (next_node != end(head))
    current_node = next_node++;]. It returns [current_node]. *)
Fixpoint free_stack_loop (fuel : nat) (head : Z)
    (current_node next_node : _iterator self) : M (_iterator self) :=
  λ s,
    if iter_neq next_node (end_of this head) then
      match fuel with
      | O => None
      | S fuel' =>
          match post_incr (load_self s) next_node with
          | Some (tmp, next_node') =>
              free_stack_loop fuel' head
                (assign current_node tmp) next_node' s
          | None => None
          end
      end
    else Some (current_node, s).

(** [free_stack], lines 221-231. *)
Definition free_stack (fuel : nat) (head : Z) : M Z :=
  if empty head then mret head
  else
    let current_node := begin this head in
    let next_node := current_node in
    next_node ← read (λ s, incr (load_self s) next_node);
    current_node ← free_stack_loop fuel head current_node next_node;
    fn ← get_free_nodes;
    set_next (ptr_to_stack current_node) fn;;
    set_free_nodes head;;
    mret end_.

(** The values met by a cursor that runs from [begin(head)] to
    [end(head)]. *)
Definition contents (fuel : nat) (s : stack_pool) (head : Z) : option (list T) :=
  traverse (load_self s) fuel (begin this head) (end_of this head).

(** Pushing the values [vs], first to last, each onto the head returned by
    the push before. *)
Fixpoint push_all (vs : list T) (head : Z) : M Z :=
  match vs with
  | [] => mret head
  | v :: vs' => h ← push v head; push_all vs' h
  end.

(** The same with the arguments as references. *)
Fixpoint push_all_ref (vals : list operand) (head : Z) : M Z :=
  match vals with
  | [] => mret head
  | val :: vals' => h ← push_ref val head; push_all_ref vals' h
  end.

(** A run of [push] calls with arbitrary arguments; the handles they
    return, first to last. *)
Fixpoint push_each (args : list (T * Z)) : M (list Z) :=
  match args with
  | [] => mret []
  | (val, head) :: rest =>
      h ← push val head; hs ← push_each rest; mret (h :: hs)
  end.

(** The calls a client can make on a pool. *)
Inductive op : Type :=
| NewStack
| Reserve (n : nat)
| Push (val : T) (head : Z)
| Pop (head : Z)
| FreeStack (fuel : nat) (head : Z).

Definition run_op (o : op) : M unit :=
  match o with
  | NewStack => mret ()
  | Reserve n => reserve n
  | Push val head => push val head;; mret ()
  | Pop head => pop head;; mret ()
  | FreeStack fuel head => free_stack fuel head;; mret ()
  end.

Fixpoint run_ops (os : list op) : M unit :=
  match os with
  | [] => mret ()
  | o :: os' => run_op o;; run_ops os'
  end.

(** ** Chains

    [seg s h l t]: following [next] from the handle [h] meets exactly the
    nodes [l], in this order, and then arrives at [t]. *)
Inductive seg (s : stack_pool) : Z → list Z → Z → Prop :=
| seg_nil t : seg s t [] t
| seg_cons h nx l t :
    h ≠ end_ → is_handle h → next s h = Some nx → seg s nx l t →
    seg s h (h :: l) t.

(** A chain is a segment that arrives at the sentinel. *)
Definition chain (s : stack_pool) (h : Z) (l : list Z) : Prop :=
  seg s h l end_.

(** The nodes [l] hold the values [vs]. *)
Definition holds (s : stack_pool) (l : list Z) (vs : list T) : Prop :=
  Forall2 (λ x v, value s x = Some v) l vs.

(** Invariant 2 of the specification: the free list is a chain. *)
Definition free_list_ok (s : stack_pool) : Prop :=
  ∃ fl, chain s (free_nodes s) fl.

(** The vector can take one more element and still index it with a
    [stack_type]. *)
Definition room (s : stack_pool) : Prop :=
  (Z.of_nat (size s) + 1 < modulus)%Z.

(** One call on the pool by a client that keeps to the contract: [pop] on
    a handle of a node outside the free list, [free_stack] on a chain
    disjoint from the free list, [push] while the vector has room. *)
Inductive step : stack_pool → stack_pool → Prop :=
| step_new_stack s : step s s
| step_reserve s n s' : reserve n s = Some ((), s') → step s s'
| step_push s val head h s' :
    room s → push val head s = Some (h, s') → step s s'
| step_pop s head fl h s' :
    chain s (free_nodes s) fl →
    is_handle head → head ≠ end_ → head ∉ fl →
    pop head s = Some (h, s') → step s s'
| step_free_stack s head l fl fuel r s' :
    chain s head l → chain s (free_nodes s) fl →
    (∀ x, x ∈ l → x ∉ fl) → length l ≤ fuel →
    free_stack fuel head s = Some (r, s') → step s s'.

(** The position of node [x] in the vector. *)
Definition idx (x : Z) : nat := Z.to_nat (wrap (x - 1)).

(** The pool [s] with node [x] replaced by [n] and the free-list head by
    [fn]. *)
Definition with_node (s : stack_pool) (x : Z) (n : node_t) (fn : Z) : stack_pool :=
  {| pool := {| elems := <[idx x := n]> (elems (pool s)); cap := cap (pool s) |};
     free_nodes := fn |}.

(** The pool after [_push] had to append a node. *)
Definition appended (s : stack_pool) (val : T) (head : Z) : stack_pool :=
  {| pool := {| elems := elems (pool s) ++ [{| value_ := val; next_ := head |}];
                cap := if decide (size s < capacity s) then capacity s
                       else grow (capacity s) |};
     free_nodes := end_ |}.

(** The pool on which [_push] picks its node: the pool itself, or the pool
    after [push_back] and line 85 when the free list is empty. *)
Definition push_prepared (s : stack_pool) : stack_pool :=
  if decide (free_nodes s = end_) then
    {| pool := vec_push_back {| value_ := T_init; next_ := end_ |} (pool s);
       free_nodes := wrap (Z.of_nat (S (size s))) |}
  else s.

(** The result of [_push val head] in closed form. *)
Definition pushed (val : T) (head : Z) (s : stack_pool) : option (Z * stack_pool) :=
  let s1 := push_prepared s in
  match node s1 (free_nodes s1) with
  | Some n =>
      Some (free_nodes s1,
            with_node s1 (free_nodes s1) {| value_ := val; next_ := head |} (next_ n))
  | None => None
  end.

End StackPool.

Arguments it_head {P} _.
Arguments it_pool {P} _.
Arguments assign {P} this a.
Arguments deref {T P} load this.
Arguments ptr_to_stack {P} this.
Arguments incr {T P} load this.
Arguments post_incr {T P} load this.
Arguments iter_eq {P} a b.
Arguments iter_neq {P} a b.
Arguments begin {P} p x.
Arguments end_of {P} p x.
Arguments traverse {T P} load fuel it last.

(** ** Further definitions *)

(** Every [next] field stored in the vector is a value of [stack_type]. *)
Definition typed {T : Type} (s : stack_pool (T:=T)) : Prop :=
  Forall (λ n, is_handle (next_ n)) (elems (pool s)).

(** ** Concrete pools used in the examples *)

(** Five nodes: the stack 3 -> 2 -> 1 holds 30, 20, 10 and the free list is
    5 -> 4. *)
Definition ex_pool : stack_pool (T:=Z) :=
  {| pool := {| elems := [ {| value_ := 10%Z; next_ := 0 |};
                           {| value_ := 20%Z; next_ := 1 |};
                           {| value_ := 30%Z; next_ := 2 |};
                           {| value_ := 40%Z; next_ := 0 |};
                           {| value_ := 50%Z; next_ := 4 |} ];
                cap := 8 |};
     free_nodes := 5 |}.

(** A second pool, whose nodes 1 and 2 hold other values than [ex_pool]'s. *)
Definition ex_pool_b : stack_pool (T:=Z) :=
  {| pool := {| elems := [ {| value_ := 7%Z; next_ := 0 |};
                           {| value_ := 8%Z; next_ := 1 |} ];
                cap := 2 |};
     free_nodes := 0 |}.

(** Two pools in memory, referenced by [true] and [false]. *)
Definition ex_load (p : bool) : option (stack_pool (T:=Z)) :=
  Some (if p then ex_pool else ex_pool_b).

(** The fresh pool after [push(10, 0)], then [push(20, 1)], then [pop(2)]. *)
Definition ex_s1 : stack_pool (T:=Z) :=
  {| pool := {| elems := [ {| value_ := 10%Z; next_ := 0 |} ]; cap := 1 |};
     free_nodes := 0 |}.
Definition ex_s2 : stack_pool (T:=Z) :=
  {| pool := {| elems := [ {| value_ := 10%Z; next_ := 0 |};
                           {| value_ := 20%Z; next_ := 1 |} ];
                cap := 2 |};
     free_nodes := 0 |}.
Definition ex_s3 : stack_pool (T:=Z) :=
  {| pool := {| elems := [ {| value_ := 10%Z; next_ := 0 |};
                           {| value_ := 20%Z; next_ := 0 |} ];
                cap := 2 |};
     free_nodes := 2 |}.

(** Three pushes on a fresh pool, a traversal, [pop], a traversal,
    [free_stack], and a [push] onto a new stack. *)
Definition ex_scenario : option (list Z * list Z * Z * Z * nat * nat) :=
  '(h3, s3) ← push_all 0%Z grow_double [10; 20; 30]%Z new_stack stack_pool_new;
  t3 ← contents 3 s3 h3;
  '(h2, s2) ← pop h3 s3;
  t2 ← contents 2 s2 h2;
  '(e, s0) ← free_stack 1 h2 s2;
  '(h, s1) ← push 0%Z grow_double 99%Z new_stack s0;
  Some (t3, t2, e, h, capacity s3, capacity s1).

(** [ex_s1] after a [push] of 10 onto the stack 1. *)
Definition ex_s1_twice : stack_pool (T:=Z) :=
  {| pool := {| elems := [ {| value_ := 10%Z; next_ := 0 |};
                           {| value_ := 10%Z; next_ := 1 |} ];
                cap := 2 |};
     free_nodes := 0 |}.

(** One node, an empty free list and capacity for three more nodes. *)
Definition ex_spare : stack_pool (T:=Z) :=
  {| pool := {| elems := [ {| value_ := 10%Z; next_ := 0 |} ]; cap := 4 |};
     free_nodes := 0 |}.

(** [ex_pool] after [push(99, 3)]: node 5 is reused. *)
Definition ex_pool_pushed : stack_pool (T:=Z) :=
  {| pool := {| elems := [ {| value_ := 10%Z; next_ := 0 |};
                           {| value_ := 20%Z; next_ := 1 |};
                           {| value_ := 30%Z; next_ := 2 |};
                           {| value_ := 40%Z; next_ := 0 |};
                           {| value_ := 99%Z; next_ := 3 |} ];
                cap := 8 |};
     free_nodes := 4 |}.

(** [ex_pool] after [free_stack(3)]. *)
Definition ex_pool_freed : stack_pool (T:=Z) :=
  {| pool := {| elems := [ {| value_ := 10%Z; next_ := 5 |};
                           {| value_ := 20%Z; next_ := 1 |};
                           {| value_ := 30%Z; next_ := 2 |};
                           {| value_ := 40%Z; next_ := 0 |};
                           {| value_ := 50%Z; next_ := 4 |} ];
                cap := 8 |};
     free_nodes := 3 |}.

(** Two stacks, 2 -> 1 and 3 -> 1, that share node 1; the free list is 4. *)
Definition ex_shared : stack_pool (T:=Z) :=
  {| pool := {| elems := [ {| value_ := 10%Z; next_ := 0 |};
                           {| value_ := 20%Z; next_ := 1 |};
                           {| value_ := 30%Z; next_ := 1 |};
                           {| value_ := 40%Z; next_ := 0 |} ];
                cap := 4 |};
     free_nodes := 4 |}.

(** A pool whose only node is its own successor. *)
Definition ex_cycle : stack_pool (T:=Z) :=
  {| pool := {| elems := [ {| value_ := 1%Z; next_ := 1 |} ]; cap := 1 |};
     free_nodes := 0 |}.

(** A client session on a fresh pool, and the pool it ends with. *)
Definition ex_session : list (op (T:=Z)) :=
  [ Reserve 3; Push 10%Z 0; Push 20%Z 1; Push 30%Z 2; Pop 3; Reserve 1;
    NewStack; FreeStack 5 2; Push 99%Z 0; Push 98%Z 0; Push 97%Z 0;
    Push 96%Z 0 ].
Definition ex_session_pool : stack_pool (T:=Z) :=
  {| pool := {| elems := [ {| value_ := 98%Z; next_ := 0 |};
                           {| value_ := 99%Z; next_ := 0 |};
                           {| value_ := 97%Z; next_ := 0 |};
                           {| value_ := 96%Z; next_ := 0 |} ];
                cap := 6 |};
     free_nodes := 0 |}.

(** Tactics for goals about concrete pools. *)
Ltac handle_tac := vm_compute; split; [discriminate | reflexivity].

Ltac chain_tac :=
  repeat first
    [ apply seg_nil
    | eapply seg_cons; [ discriminate | handle_tac | reflexivity | ] ].

Section Properties.

Context {T : Type} (T_init : T) (grow : nat → nat).

Implicit Types s : stack_pool (T:=T).

(** ** Basic facts about nodes *)

Lemma wrap_range z : (0 ≤ wrap z < modulus)%Z.
Proof. unfold wrap, modulus. apply Z.mod_pos_bound. lia. Qed.

Lemma wrap_pred x : is_handle x → x ≠ end_ → wrap (x - 1) = (x - 1)%Z.
Proof.
  unfold is_handle, end_, wrap. intros ? ?. apply Z.mod_small. lia.
Qed.

Lemma wrap_pred_end : wrap (end_ - 1) = (modulus - 1)%Z.
Proof. reflexivity. Qed.

Lemma idx_inj x y : is_handle x → is_handle y → idx x = idx y → x = y.
Proof.
  unfold idx. intros Hx Hy Heq.
  apply Z2Nat.inj in Heq; try apply wrap_range.
  destruct (decide (x = end_)) as [->|Hx0], (decide (y = end_)) as [->|Hy0];
    try done.
  - rewrite wrap_pred_end, (wrap_pred y) in Heq by done.
    unfold is_handle in *. lia.
  - rewrite wrap_pred_end, (wrap_pred x) in Heq by done.
    unfold is_handle in *. lia.
  - rewrite !wrap_pred in Heq by done. lia.
Qed.

Lemma node_lookup s x : node s x = elems (pool s) !! idx x.
Proof.
  unfold node, vec_at, idx. case_decide as H; [done|].
  symmetry. apply lookup_ge_None.
  pose proof (wrap_range (x - 1)). lia.
Qed.

Lemma node_Some_lt s x n : node s x = Some n → idx x < size s.
Proof. rewrite node_lookup. apply lookup_lt_Some. Qed.

Lemma set_node_Some s x n :
  idx x < size s → set_node s x n = Some (with_node s x n (free_nodes s)).
Proof.
  intros Hlt. unfold set_node, vec_set, with_node, idx in *.
  unfold size in Hlt. pose proof (wrap_range (x - 1)).
  case_decide; [done | lia].
Qed.

Lemma node_with_node_eq s x n fn :
  idx x < size s → node (with_node s x n fn) x = Some n.
Proof. intros. rewrite node_lookup. simpl. by apply list_lookup_insert_eq. Qed.

Lemma node_with_node_ne s x y n fn :
  is_handle x → is_handle y → x ≠ y →
  node (with_node s x n fn) y = node s y.
Proof.
  intros Hx Hy Hne. rewrite !node_lookup. simpl.
  apply list_lookup_insert_ne. intros Heq. by apply Hne, idx_inj.
Qed.

Lemma size_with_node s x n fn : size (with_node s x n fn) = size s.
Proof. unfold size. simpl. apply length_insert. Qed.

Lemma capacity_with_node s x n fn :
  capacity (with_node s x n fn) = capacity s.
Proof. reflexivity. Qed.

Lemma with_node_twice s x n1 n2 fn1 fn2 :
  with_node (with_node s x n1 fn1) x n2 fn2 = with_node s x n2 fn2.
Proof. unfold with_node. simpl. by rewrite list_insert_insert_eq. Qed.

(** ** What each operation computes *)

Lemma set_next_run s x y n :
  node s x = Some n →
  set_next x y s =
    Some ((), with_node s x {| value_ := value_ n; next_ := y |} (free_nodes s)).
Proof.
  intros Hn. unfold set_next. rewrite Hn.
  rewrite set_node_Some by eauto using node_Some_lt. done.
Qed.

Lemma set_value_run s x v n :
  node s x = Some n →
  set_value x v s =
    Some ((), with_node s x {| value_ := v; next_ := next_ n |} (free_nodes s)).
Proof.
  intros Hn. unfold set_value. rewrite Hn.
  rewrite set_node_Some by eauto using node_Some_lt. done.
Qed.

(** [pop] on a node of the vector. *)
Lemma pop_run s head n :
  node s head = Some n →
  pop head s =
    Some (next_ n,
          with_node s head {| value_ := value_ n; next_ := free_nodes s |} head).
Proof.
  intros Hn. unfold pop, read, get_free_nodes, set_free_nodes, next.
  unfold mbind, M_bind, mret, M_ret. rewrite Hn. simpl.
  rewrite (set_next_run _ _ _ _ Hn). done.
Qed.

(** [pop] where there is no node has no defined result. *)
Lemma pop_undefined s head : node s head = None → pop head s = None.
Proof.
  intros Hn. unfold pop, read, next, mbind, M_bind. by rewrite Hn.
Qed.

(** [_push] with a non-empty free list: the first free node is reused. *)
Lemma push_reuse s val head n :
  free_nodes s ≠ end_ →
  node s (free_nodes s) = Some n →
  _push T_init grow val head s =
    Some (free_nodes s,
          with_node s (free_nodes s) {| value_ := val; next_ := head |} (next_ n)).
Proof.
  intros Hne Hn. unfold _push, read, get_free_nodes, set_free_nodes, next.
  unfold mbind, M_bind, mret, M_ret. simpl.
  case_decide; [done|]. simpl. rewrite Hn. simpl.
  pose proof (node_Some_lt _ _ _ Hn) as Hlt.
  set (s1 := {| pool := pool s; free_nodes := next_ n |}).
  assert (node s1 (free_nodes s) = Some n) as Hn1 by done.
  rewrite (set_next_run _ _ _ _ Hn1).
  erewrite set_value_run by (by apply node_with_node_eq).
  by rewrite with_node_twice.
Qed.

(** [_push] with an empty free list: one node is appended and used. *)
Lemma push_fresh s val head :
  free_nodes s = end_ →
  room s →
  _push T_init grow val head s = Some ((Z.of_nat (size s) + 1)%Z, appended grow s val head).
Proof.
  intros Hfn Hroom. unfold room in Hroom.
  unfold _push, read, get_free_nodes, set_free_nodes, push_back, next.
  unfold mbind, M_bind, mret, M_ret. simpl.
  case_decide; [|done]. simpl.
  set (n0 := {| value_ := T_init; next_ := end_ |}).
  set (v1 := vec_push_back grow n0 (pool s)).
  assert (∀ fn, size {| pool := v1; free_nodes := fn |} = S (size s)) as Hsz.
  { intros fn. unfold size. simpl. rewrite length_app. simpl. lia. }
  rewrite Hsz.
  assert (wrap (Z.of_nat (S (size s))) = (Z.of_nat (size s) + 1)%Z) as Hw.
  { unfold wrap. rewrite Z.mod_small; lia. }
  rewrite Hw. set (h := (Z.of_nat (size s) + 1)%Z).
  assert (is_handle h ∧ h ≠ end_) as [Hh Hh0].
  { unfold is_handle, end_, h. lia. }
  assert (idx h = size s) as Hidx.
  { unfold idx. rewrite wrap_pred by done. unfold h. lia. }
  assert (∀ fn, node {| pool := v1; free_nodes := fn |} h = Some n0) as Hn.
  { intros fn. rewrite node_lookup, Hidx. simpl.
    rewrite lookup_app_r by done. unfold size. by rewrite Nat.sub_diag. }
  rewrite Hn. simpl.
  rewrite (set_next_run _ _ _ _ (Hn _)).
  erewrite set_value_run; last first.
  { apply node_with_node_eq. rewrite Hidx, Hsz. lia. }
  rewrite with_node_twice. do 2 f_equal.
  unfold with_node, appended. simpl. rewrite Hidx. f_equal.
  f_equal. unfold size.
  rewrite insert_app_r_alt by done. by rewrite Nat.sub_diag.
Qed.

Lemma last_cons_default {A} (a : A) (l : list A) (d1 d2 : A) :
  List.last (a :: l) d1 = List.last (a :: l) d2.
Proof.
  revert a. induction l as [|b l IH]; intros a; [done|].
  change (List.last (b :: l) d1 = List.last (b :: l) d2). apply IH.
Qed.

(** The walk of [free_stack] along a chain stops with [current_node] on the
    last node. *)
Lemma free_stack_loop_run s head cur nx l fuel :
  chain s nx l →
  length l ≤ fuel →
  free_stack_loop fuel head (begin this cur) (begin this nx) s =
    Some (begin this (List.last l cur), s).
Proof.
  unfold chain. intros Hch. remember end_ as t eqn:Ht.
  revert cur fuel.
  induction Hch as [t|h nx l t Hh0 Hh Hnx Hch IH]; intros cur fuel Hfuel.
  - subst t. destruct fuel; done.
  - simpl in Hfuel. destruct fuel as [|fuel]; [lia|].
    cbn [free_stack_loop].
    unfold iter_neq, iter_eq. simpl.
    rewrite bool_decide_eq_false_2 by done. simpl.
    unfold post_incr, incr. simpl. rewrite Hnx. simpl.
    unfold assign. simpl. fold (begin this h). fold (begin this nx).
    rewrite IH by (done || lia). do 3 f_equal.
    destruct l; [done|]. apply last_cons_default.
Qed.

(** [free_stack] on a non-empty chain: only the last node and the free-list
    head are written. *)
Lemma free_stack_run s head l tl n fuel :
  chain s head (l ++ [tl]) →
  node s tl = Some n →
  length l ≤ fuel →
  free_stack fuel head s =
    Some (end_,
          with_node s tl {| value_ := value_ n; next_ := free_nodes s |} head).
Proof.
  intros Hch Hn Hfuel. unfold free_stack.
  unfold chain in Hch.
  inversion Hch as [t Heq1 Heq2|h nx l' t Hh0 Hh Hnx Hch' Heq1 Heq2].
  { by destruct l. }
  subst h. unfold empty. rewrite bool_decide_eq_false_2 by done.
  unfold read, get_free_nodes, set_free_nodes.
  unfold mbind at 1, M_bind at 1. unfold incr. simpl. rewrite Hnx. simpl.
  unfold mbind at 1, M_bind at 1.
  fold (begin this head). fold (begin this nx).
  rewrite (free_stack_loop_run s head head nx l'); [|done|].
  2:{ destruct l; simplify_eq/=; [lia|]. rewrite length_app in *. simpl. lia. }
  assert (List.last l' head = tl) as ->.
  { destruct l as [|a l]; simplify_eq/=; [done|].
    rewrite last_last. done. }
  unfold mbind, M_bind, mret, M_ret. simpl. unfold ptr_to_stack. simpl.
  rewrite (set_next_run _ _ _ _ Hn). done.
Qed.

(** ** Facts about chains *)

Lemma seg_nodes s h l t :
  seg s h l t →
  Forall (λ x, is_handle x ∧ x ≠ end_ ∧ is_Some (node s x)) l.
Proof.
  induction 1 as [|h nx l t Hh0 Hh Hnx _ IH]; [by constructor|].
  constructor; [|done].
  split; [done|]. split; [done|]. unfold next in Hnx.
  destruct (node s h); [eauto | done].
Qed.

(** A segment only depends on the nodes it visits. *)
Lemma seg_frame s s' h l t :
  (∀ x, x ∈ l → node s' x = node s x) →
  seg s h l t → seg s' h l t.
Proof.
  intros Hsame Hseg. induction Hseg as [|h nx l t Hh0 Hh Hnx _ IH];
    [constructor|].
  econstructor; try done.
  - unfold next in *. rewrite Hsame; [done | apply list_elem_of_here].
  - apply IH. intros x Hx. apply Hsame. by apply list_elem_of_further.
Qed.

Lemma holds_frame s s' l vs :
  (∀ x, x ∈ l → node s' x = node s x) →
  holds s l vs → holds s' l vs.
Proof.
  unfold holds. intros Hsame Hh.
  induction Hh as [|x v l vs Hv _ IH]; constructor.
  - unfold value in *. rewrite Hsame; [done | apply list_elem_of_here].
  - apply IH. intros y Hy. apply Hsame. by apply list_elem_of_further.
Qed.

Lemma seg_app s h l1 m l2 t :
  seg s h l1 m → seg s m l2 t → seg s h (l1 ++ l2) t.
Proof.
  induction 1; intros; simpl; [done|]. econstructor; eauto.
Qed.

Lemma seg_app_inv s h l1 l2 t :
  seg s h (l1 ++ l2) t → ∃ m, seg s h l1 m ∧ seg s m l2 t.
Proof.
  revert h. induction l1 as [|a l1 IH]; intros h Hseg; simpl in *.
  - exists h. split; [constructor | done].
  - inversion Hseg as [|? nx ? ? Hh0 Hh Hnx Hrest]; subst.
    destruct (IH _ Hrest) as (m & H1 & H2).
    exists m. split; [econstructor; eauto | done].
Qed.

(** The chain that starts at a handle is unique. *)
Lemma chain_inj s h l1 l2 : chain s h l1 → chain s h l2 → l1 = l2.
Proof.
  unfold chain. intros H1. remember end_ as t eqn:Ht. revert l2.
  induction H1 as [t|h nx l t Hh0 Hh Hnx _ IH]; intros l2 H2;
    inversion H2; subst; try done.
  f_equal. apply IH; [done|]. congruence.
Qed.

(** From a node of a chain, the rest of the chain is a chain. *)
Lemma chain_suffix s h l x :
  chain s h l → x ∈ l → ∃ l1 l2, l = l1 ++ x :: l2 ∧ chain s x (x :: l2).
Proof.
  intros Hch Hx.
  apply list_elem_of_split in Hx as (l1 & l2 & ->).
  exists l1, l2. split; [done|].
  apply seg_app_inv in Hch as (m & _ & Hm).
  inversion Hm; subst. done.
Qed.

(** A chain that reaches the sentinel visits no node twice. *)
Lemma chain_NoDup s h l : chain s h l → NoDup l.
Proof.
  unfold chain. intros Hch. remember end_ as t eqn:Ht.
  induction Hch as [t|h nx l t Hh0 Hh Hnx Hch IH]; [constructor|].
  subst t. constructor; [|by apply IH].
  intros Hin.
  destruct (chain_suffix s nx l h Hch Hin) as (l1 & l2 & -> & Hsuf).
  assert (chain s h (h :: l1 ++ h :: l2)) as Hfull by (econstructor; eauto).
  pose proof (chain_inj _ _ _ _ Hsuf Hfull) as Heq.
  apply (f_equal length) in Heq. simpl in Heq.
  rewrite length_app in Heq. simpl in Heq. lia.
Qed.

Lemma chain_nil_inv s h : chain s h [] → h = end_.
Proof. by inversion 1. Qed.

Lemma chain_cons_inv s h x l :
  chain s h (x :: l) →
  h = x ∧ x ≠ end_ ∧ is_handle x ∧ ∃ nx, next s x = Some nx ∧ chain s nx l.
Proof. inversion 1; subst. eauto 10. Qed.

(** A cursor that runs along a chain meets the values its nodes hold. *)
Lemma contents_chain s h l vs fuel :
  chain s h l → holds s l vs → length l ≤ fuel →
  contents fuel s h = Some vs.
Proof.
  unfold contents, chain. intros Hch. remember end_ as t eqn:Ht.
  revert vs fuel.
  induction Hch as [t|h nx l t Hh0 Hh Hnx _ IH]; intros vs fuel Hvs Hfuel.
  - subst t. inversion Hvs. by destruct fuel.
  - inversion Hvs as [|? v ? vs' Hv Hvs']; subst.
    simpl in Hfuel. destruct fuel as [|fuel]; [lia|].
    cbn [traverse]. unfold iter_neq, iter_eq. simpl.
    rewrite bool_decide_eq_false_2 by done. simpl.
    unfold deref, incr. simpl. rewrite Hv, Hnx. simpl.
    fold (begin this nx). fold (end_of this h).
    unfold end_of in *. unfold begin in *.
    rewrite (IH eq_refl vs' fuel) by (done || lia). done.
Qed.

(** ** pop *)

(** C4. For a non-sentinel handle [head] whose node has a [next] field,
    [pop head] returns the successor the node had before the call, stores
    the previous free-list head in the node's [next], and makes [head] the
    free-list head. The node keeps its value, every other element of the
    vector is unchanged, and neither the size nor the capacity of the
    vector changes. *)
Theorem pop_spec s head nx :
  is_handle head → head ≠ end_ → next s head = Some nx →
  ∃ s', pop head s = Some (nx, s') ∧
        next s' head = Some (free_nodes s) ∧
        free_nodes s' = head ∧
        value s' head = value s head ∧
        (∀ i, i ≠ idx head → elems (pool s') !! i = elems (pool s) !! i) ∧
        (∀ x, is_handle x → x ≠ head → node s' x = node s x) ∧
        size s' = size s ∧
        capacity s' = capacity s.
Proof.
  intros Hh Hh0 Hnx. unfold next in Hnx.
  destruct (node s head) as [n|] eqn:Hn; [|done]. simpl in Hnx.
  injection Hnx as <-.
  eexists. split; [by apply pop_run|].
  pose proof (node_Some_lt _ _ _ Hn) as Hlt.
  repeat split.
  - unfold next. by rewrite node_with_node_eq.
  - unfold value. rewrite node_with_node_eq by done. by rewrite Hn.
  - intros i Hi. simpl. by apply list_lookup_insert_ne.
  - intros x Hx Hne. by apply node_with_node_ne.
  - apply size_with_node.
Qed.

(** ** push *)

(** C2. Allocation takes from the free list first. With a non-empty free
    list [push] returns the free-list head and leaves the size and the
    capacity of the vector alone; with an empty one it appends exactly one
    node and returns its handle. Hence [pop h] followed by a [push] returns
    [h] again, with the size and the capacity as they were before the
    [pop]. *)
Theorem push_free_list_first s val head :
  (∀ n, free_nodes s ≠ end_ → node s (free_nodes s) = Some n →
     ∃ s', push T_init grow val head s = Some (free_nodes s, s') ∧
           free_nodes s' = next_ n ∧
           size s' = size s ∧ capacity s' = capacity s) ∧
  (free_nodes s = end_ → room s →
     ∃ s', push T_init grow val head s = Some ((Z.of_nat (size s) + 1)%Z, s') ∧
           size s' = S (size s)) ∧
  (∀ h, is_handle h → h ≠ end_ → is_Some (node s h) →
     ∃ h1 s1 s2, pop h s = Some (h1, s1) ∧
                 size s1 = size s ∧ capacity s1 = capacity s ∧
                 push T_init grow val head s1 = Some (h, s2) ∧
                 size s2 = size s ∧ capacity s2 = capacity s).
Proof.
  split; [|split].
  - intros n Hne Hn. eexists. split; [by apply push_reuse|].
    split; [done|]. split; [apply size_with_node | done].
  - intros Hfn Hroom. eexists. split; [by apply push_fresh|].
    unfold size, appended. simpl. rewrite length_app. simpl. lia.
  - intros h Hh Hh0 [n Hn].
    pose proof (node_Some_lt _ _ _ Hn) as Hlt.
    set (s1 := with_node s h {| value_ := value_ n; next_ := free_nodes s |} h).
    assert (node s1 (free_nodes s1) = Some {| value_ := value_ n; next_ := free_nodes s |})
      as Hn1 by (by apply node_with_node_eq).
    exists (next_ n), s1. eexists.
    split; [by apply pop_run|].
    split; [apply size_with_node|]. split; [done|].
    split; [exact (push_reuse s1 val head _ Hh0 Hn1)|].
    split; [|done]. simpl. unfold s1. by rewrite !size_with_node.
Qed.

(** ** free_stack *)

Lemma free_stack_loop_state fuel head cur nx s r s' :
  free_stack_loop fuel head cur nx s = Some (r, s') → s' = s.
Proof.
  revert cur nx. induction fuel as [|fuel IH]; intros cur nx; simpl.
  - case_match; [done | by intros [= _ ->]].
  - case_match; [|by intros [= _ ->]].
    destruct (post_incr _ _) as [[tmp nx']|]; [|done]. apply IH.
Qed.

(** [free_stack] returns nothing but the sentinel. *)
Lemma free_stack_returns_end fuel head s r s' :
  free_stack fuel head s = Some (r, s') → r = end_.
Proof.
  unfold free_stack, empty. case_bool_decide as Hh.
  - by intros [= <- _].
  - unfold mbind, M_bind, mret, M_ret, read, get_free_nodes, set_free_nodes.
    intros Hrun. repeat case_match; simplify_eq/=; done.
Qed.

(** The effect of [free_stack] on a non-empty chain [l ++ [tl]]: the last
    node gets the previous free-list head as its successor, and the chain
    then leads from the new free-list head to the previous one. *)
Lemma free_stack_chain s head l tl fuel :
  chain s head (l ++ [tl]) → length l ≤ fuel →
  ∃ n s', node s tl = Some n ∧
          s' = with_node s tl {| value_ := value_ n; next_ := free_nodes s |} head ∧
          free_stack fuel head s = Some (end_, s') ∧
          is_handle tl ∧ tl ≠ end_ ∧
          seg s' head (l ++ [tl]) (free_nodes s).
Proof.
  intros Hch Hfuel.
  pose proof (seg_nodes _ _ _ _ Hch) as Hnodes.
  apply Forall_app in Hnodes as [Hl Htl].
  apply Forall_singleton in Htl as (Htlh & Htl0 & [n Hn]).
  exists n. eexists. split; [done|]. split; [done|].
  split; [by eapply free_stack_run|]. split; [done|]. split; [done|].
  pose proof (node_Some_lt _ _ _ Hn) as Hlt.
  pose proof (chain_NoDup _ _ _ Hch) as Hnd.
  apply list.NoDup_app in Hnd as (_ & Hdisj & _).
  apply seg_app_inv in Hch as (m & Hl1 & Hl2).
  inversion Hl2; subst.
  apply seg_app with tl.
  - eapply seg_frame; [|done]. intros x Hx. apply node_with_node_ne.
    + done.
    + rewrite Forall_forall in Hl. by apply Hl.
    + intros ->. apply (Hdisj _ Hx). apply list_elem_of_here.
  - apply (seg_cons _ tl (free_nodes s)); [done|done| |constructor].
    unfold next. by rewrite node_with_node_eq.
Qed.

(** C3. [free_stack] returns the sentinel whenever it returns; on the
    sentinel it changes nothing; on a chain [l ++ [tl]] that starts at
    [head] and ends at the sentinel it stores the previous free-list head in
    the [next] of the last node [tl] and makes [head] the free-list head, so
    that the nodes of the chain, in their order, now lead from the free-list
    head to the previous free-list head, and the free list is the chain
    followed by the previous free list when the two were disjoint. *)
Theorem free_stack_spec :
  (∀ fuel s head r s', free_stack fuel head s = Some (r, s') → r = end_) ∧
  (∀ fuel s, free_stack fuel end_ s = Some (end_, s)) ∧
  (∀ fuel s head l tl,
     chain s head (l ++ [tl]) → length l ≤ fuel →
     ∃ s', free_stack fuel head s = Some (end_, s') ∧
           next s' tl = Some (free_nodes s) ∧
           free_nodes s' = head ∧
           seg s' (free_nodes s') (l ++ [tl]) (free_nodes s) ∧
           ∀ fl, chain s (free_nodes s) fl → tl ∉ fl →
                 chain s' (free_nodes s') ((l ++ [tl]) ++ fl)).
Proof.
  split; [|split].
  - intros. by eapply free_stack_returns_end.
  - done.
  - intros fuel s head l tl Hch Hfuel.
    destruct (free_stack_chain _ _ _ _ _ Hch Hfuel)
      as (n & s' & Hn & -> & Hrun & Htlh & Htl0 & Hseg).
    eexists. split; [done|].
    pose proof (node_Some_lt _ _ _ Hn) as Hlt.
    split; [unfold next; by rewrite node_with_node_eq|].
    split; [done|]. split; [done|].
    intros fl Hfl Hnot. simpl.
    eapply seg_app; [done|].
    eapply seg_frame; [|done]. intros x Hx. apply node_with_node_ne.
    + done.
    + pose proof (seg_nodes _ _ _ _ Hfl) as Hfln.
      rewrite Forall_forall in Hfln. by apply Hfln.
    + by intros ->.
Qed.

(** C9. On a non-empty chain [l ++ [tl]], [free_stack] writes the [next]
    field of the last node [tl] and the free-list head, and nothing else:
    every element of the vector keeps its value, every element but the last
    node of the chain is unchanged, and the size and the capacity of the
    vector stay as they were. *)
Theorem free_stack_frame fuel s head l tl :
  chain s head (l ++ [tl]) → length l ≤ fuel →
  ∃ s', free_stack fuel head s = Some (end_, s') ∧
        (∀ i, value_ <$> elems (pool s') !! i = value_ <$> elems (pool s) !! i) ∧
        (∀ i, i ≠ idx tl → elems (pool s') !! i = elems (pool s) !! i) ∧
        (∀ x, value s' x = value s x) ∧
        (∀ x, is_handle x → x ≠ tl → next s' x = next s x) ∧
        next s' tl = Some (free_nodes s) ∧
        free_nodes s' = head ∧
        size s' = size s ∧
        capacity s' = capacity s.
Proof.
  intros Hch Hfuel.
  destruct (free_stack_chain _ _ _ _ _ Hch Hfuel)
    as (n & s' & Hn & -> & Hrun & Htlh & Htl0 & _).
  eexists. split; [done|].
  pose proof (node_Some_lt _ _ _ Hn) as Hlt.
  assert (∀ i, value_ <$> <[idx tl := {| value_ := value_ n; next_ := free_nodes s |}]>
                              (elems (pool s)) !! i
               = value_ <$> elems (pool s) !! i) as Hval.
  { intros i. destruct (decide (i = idx tl)) as [->|Hi].
    - rewrite list_lookup_insert_eq by done.
      rewrite node_lookup in Hn. by rewrite Hn.
    - by rewrite list_lookup_insert_ne. }
  repeat split.
  - done.
  - intros i Hi. simpl. by apply list_lookup_insert_ne.
  - intros x. unfold value. rewrite !node_lookup. apply Hval.
  - intros x Hx Hne. unfold next. by rewrite node_with_node_ne.
  - unfold next. by rewrite node_with_node_eq.
  - apply size_with_node.
Qed.

(** ** Reuse of freed nodes *)

(** While the free list has enough nodes, a run of [push] calls returns its
    nodes in order and leaves the vector's size and capacity alone. *)
Lemma push_each_reuse args :
  ∀ s l t,
    seg s (free_nodes s) l t → NoDup l → length args ≤ length l →
    ∃ s', push_each T_init grow args s = Some (take (length args) l, s') ∧
          size s' = size s ∧ capacity s' = capacity s.
Proof.
  induction args as [|[val head] args IH]; intros s l t Hseg Hnd Hlen.
  - exists s. done.
  - destruct l as [|x l]; [simpl in Hlen; lia|].
    inversion Hseg as [|? nx ? ? Hx0 Hx Hnx Hrest]; subst.
    apply NoDup_cons in Hnd as [Hxl Hnd].
    unfold next in Hnx. destruct (node s (free_nodes s)) as [n|] eqn:Hn; [|done].
    simpl in Hnx. injection Hnx as <-.
    pose proof (push_reuse s val head n Hx0 Hn) as Hpush.
    set (s1 := with_node s _ _ _) in Hpush.
    destruct (IH s1 l t) as (s' & Hrun & Hsz & Hcap).
    + simpl. eapply seg_frame; [|done]. intros y Hy.
      pose proof (seg_nodes _ _ _ _ Hrest) as Hnodes.
      rewrite Forall_forall in Hnodes.
      apply node_with_node_ne; [done | by apply Hnodes | by intros <-].
    + done.
    + simpl in Hlen. lia.
    + exists s'. split.
      * cbn [push_each]. unfold mbind, M_bind. unfold push. rewrite Hpush.
        rewrite Hrun. done.
      * rewrite Hsz, Hcap. unfold s1. by rewrite size_with_node.
Qed.

(** C5. After [free_stack] on a chain of [k] nodes, a run of up to [k]
    [push] calls, whatever their arguments, returns the nodes of the chain
    one after the other, and the size and the capacity of the vector are
    what they were before [free_stack]. *)
Theorem free_stack_then_push fuel s head l args :
  chain s head l → length l ≤ fuel → length args ≤ length l →
  ∃ s1 hs s2,
    free_stack fuel head s = Some (end_, s1) ∧
    capacity s1 = capacity s ∧
    push_each T_init grow args s1 = Some (hs, s2) ∧
    hs = take (length args) l ∧
    size s2 = size s ∧
    capacity s2 = capacity s.
Proof.
  intros Hch Hfuel Hlen.
  destruct (decide (l = [])) as [->|Hne].
  - apply chain_nil_inv in Hch as ->. destruct args; [|simpl in Hlen; lia].
    exists s, [], s. done.
  - destruct (exists_last Hne) as (l' & tl & ->).
    rewrite length_app in Hfuel. simpl in Hfuel.
    destruct (free_stack_chain s head l' tl fuel Hch ltac:(lia))
      as (n & s1 & Hn & Hs1 & Hrun & _ & _ & Hseg).
    assert (free_nodes s1 = head ∧ size s1 = size s ∧ capacity s1 = capacity s)
      as (Hfn & Hsz & Hcap).
    { subst s1. split; [done|]. split; [apply size_with_node | done]. }
    rewrite <- Hfn in Hseg.
    destruct (push_each_reuse args s1 _ _ Hseg (chain_NoDup _ _ _ Hch) Hlen)
      as (s2 & Hpush & Hsz2 & Hcap2).
    exists s1, (take (length args) (l' ++ [tl])), s2.
    repeat split; try done; congruence.
Qed.

(** ** The free list stays a chain *)

Lemma idx_fresh s : room s → idx (Z.of_nat (size s) + 1) = size s.
Proof.
  unfold room, idx. intros Hroom. rewrite wrap_pred; [lia| |].
  - unfold is_handle. lia.
  - unfold end_. lia.
Qed.

(** What [push] does to the free list and to the nodes, when the free list
    is the chain [fl]. *)
Lemma push_chain s val head fl :
  chain s (free_nodes s) fl → room s →
  ∃ h s', push T_init grow val head s = Some (h, s') ∧
          is_handle h ∧ h ≠ end_ ∧
          (fl = h :: tail fl ∨ (fl = [] ∧ node s h = None)) ∧
          node s' h = Some {| value_ := val; next_ := head |} ∧
          (∀ x, is_handle x → x ≠ h → node s' x = node s x) ∧
          chain s' (free_nodes s') (tail fl) ∧
          size s' ≤ S (size s).
Proof.
  intros Hfl Hroom. destruct fl as [|x fl].
  - apply chain_nil_inv in Hfl.
    exists (Z.of_nat (size s) + 1)%Z, (appended grow s val head).
    pose proof (idx_fresh s Hroom) as Hidx.
    assert (is_handle (Z.of_nat (size s) + 1)) as Hh.
    { unfold room, is_handle in *. lia. }
    split; [by apply push_fresh|]. split; [done|].
    split; [unfold end_; lia|].
    split. { right. split; [done|]. rewrite node_lookup, Hidx.
             by apply lookup_ge_None. }
    split. { rewrite node_lookup, Hidx. simpl.
             rewrite lookup_app_r by done. unfold size.
             by rewrite Nat.sub_diag. }
    split. { intros y Hy Hne. rewrite !node_lookup. simpl.
             assert (idx y ≠ size s) as Hiy.
             { rewrite <- Hidx. intros Heq. by apply Hne, idx_inj. }
             destruct (decide (idx y < size s)) as [Hlt|Hge].
             - by rewrite lookup_app_l.
             - rewrite !lookup_ge_None_2; [done|unfold size in *; lia|].
               rewrite length_app. simpl. unfold size in *. lia. }
    split; [constructor|].
    unfold size, appended. simpl. rewrite length_app. simpl. lia.
  - apply chain_cons_inv in Hfl as Hinv.
    destruct Hinv as (Hfn & Hx0 & Hx & nx & Hnx & Hrest).
    pose proof (chain_NoDup _ _ _ Hfl) as Hnd.
    apply NoDup_cons in Hnd as [Hxl _].
    unfold next in Hnx. rewrite Hfn in *.
    destruct (node s x) as [n|] eqn:Hn; [|done].
    simpl in Hnx. injection Hnx as <-.
    pose proof (node_Some_lt _ _ _ Hn) as Hlt.
    exists x. eexists. split.
    { unfold push. rewrite <- Hfn. apply push_reuse; by rewrite Hfn. }
    rewrite Hfn.
    split; [done|]. split; [done|]. split; [by left|].
    split; [by apply node_with_node_eq|].
    split; [intros y Hy Hne; by apply node_with_node_ne|].
    split; [|by rewrite size_with_node; lia].
    simpl. eapply seg_frame; [|done]. intros y Hy.
    pose proof (seg_nodes _ _ _ _ Hrest) as Hnodes.
    rewrite Forall_forall in Hnodes.
    apply node_with_node_ne; [done | by apply Hnodes | by intros <-].
Qed.

Lemma push_free_list s val head :
  free_list_ok s → room s →
  ∃ h s', push T_init grow val head s = Some (h, s') ∧ free_list_ok s'.
Proof.
  intros [fl Hfl] Hroom.
  destruct (push_chain s val head fl Hfl Hroom)
    as (h & s' & Hrun & _ & _ & _ & _ & _ & Hfl' & _).
  exists h, s'. split; [done|]. by exists (tail fl).
Qed.

Lemma pop_free_list s head fl :
  chain s (free_nodes s) fl →
  is_handle head → head ≠ end_ → is_Some (node s head) → head ∉ fl →
  ∃ h s', pop head s = Some (h, s') ∧ chain s' (free_nodes s') (head :: fl).
Proof.
  intros Hfl Hh Hh0 [n Hn] Hnot.
  pose proof (node_Some_lt _ _ _ Hn) as Hlt.
  eexists _, _. split; [by apply pop_run|]. simpl.
  apply (seg_cons _ head (free_nodes s)); [done|done| |].
  - unfold next. by rewrite node_with_node_eq.
  - eapply seg_frame; [|done]. intros y Hy.
    pose proof (seg_nodes _ _ _ _ Hfl) as Hnodes.
    rewrite Forall_forall in Hnodes.
    apply node_with_node_ne; [done | by apply Hnodes | by intros <-].
Qed.

Lemma free_stack_free_list s head l fl fuel :
  chain s head l → chain s (free_nodes s) fl →
  (∀ x, x ∈ l → x ∉ fl) → length l ≤ fuel →
  ∃ s', free_stack fuel head s = Some (end_, s') ∧
        chain s' (free_nodes s') (l ++ fl).
Proof.
  intros Hch Hfl Hdisj Hfuel.
  destruct (decide (l = [])) as [->|Hne].
  - apply chain_nil_inv in Hch as ->. exists s. done.
  - destruct (exists_last Hne) as (l' & tl & ->).
    rewrite length_app in Hfuel. simpl in Hfuel.
    destruct (free_stack_chain s head l' tl fuel Hch ltac:(lia))
      as (n & s' & Hn & -> & Hrun & Htlh & Htl0 & Hseg).
    eexists. split; [done|]. simpl.
    eapply seg_app; [done|].
    eapply seg_frame; [|done]. intros y Hy.
    pose proof (seg_nodes _ _ _ _ Hfl) as Hnodes.
    rewrite Forall_forall in Hnodes.
    apply node_with_node_ne; [done | by apply Hnodes |].
    intros <-. apply (Hdisj tl); [|done].
    apply elem_of_app. right. apply list_elem_of_here.
Qed.

Lemma step_free_list s s' : free_list_ok s → step T_init grow s s' → free_list_ok s'.
Proof.
  intros Hok Hstep.
  destruct Hstep as [s|s n s' Hrun|s val head h s' Hroom Hrun
                    |s head fl h s' Hfl Hh Hh0 Hnot Hrun
                    |s head l fl fuel r s' Hch Hfl Hdisj Hfuel Hrun].
  - done.
  - destruct Hok as [fl Hfl]. injection Hrun as <-.
    exists fl. simpl. eapply seg_frame; [|done]. done.
  - destruct (push_free_list s val head Hok Hroom) as (h' & s'' & Hrun' & Hok').
    rewrite Hrun in Hrun'. by injection Hrun' as _ ->.
  - destruct (node s head) as [n|] eqn:Hn.
    + destruct (pop_free_list s head fl Hfl Hh Hh0 ltac:(eauto) Hnot)
        as (h' & s'' & Hrun' & Hfl').
      rewrite Hrun in Hrun'. injection Hrun' as _ ->. by eexists.
    + by rewrite pop_undefined in Hrun.
  - destruct (free_stack_free_list s head l fl fuel Hch Hfl Hdisj Hfuel)
      as (s'' & Hrun' & Hfl').
    rewrite Hrun in Hrun'. injection Hrun' as _ ->. by eexists.
Qed.

(** C6. The free list of a fresh pool is a chain, and it stays one: [push]
    in a pool whose free list is a chain returns and leaves a chain; so does
    [pop] on a node outside the free list, which puts that node in front;
    so does [free_stack] on a chain disjoint from the free list, which puts
    that chain in front. Hence in every pool a client reaches from the fresh
    pool within the contract, following [next] from the free-list head
    arrives at the sentinel and visits no node twice. *)
Theorem free_list_invariant :
  free_list_ok (T:=T) stack_pool_new ∧
  (∀ s val head, free_list_ok s → room s →
     ∃ h s', push T_init grow val head s = Some (h, s') ∧ free_list_ok s') ∧
  (∀ s head fl,
     chain s (free_nodes s) fl →
     is_handle head → head ≠ end_ → is_Some (node s head) → head ∉ fl →
     ∃ h s', pop head s = Some (h, s') ∧
             chain s' (free_nodes s') (head :: fl)) ∧
  (∀ s head l fl fuel,
     chain s head l → chain s (free_nodes s) fl →
     (∀ x, x ∈ l → x ∉ fl) → length l ≤ fuel →
     ∃ s', free_stack fuel head s = Some (end_, s') ∧
           chain s' (free_nodes s') (l ++ fl)) ∧
  (∀ s s', free_list_ok s → step T_init grow s s' → free_list_ok s') ∧
  (∀ s, rtc (step T_init grow) stack_pool_new s →
     ∃ fl, chain s (free_nodes s) fl ∧ NoDup fl).
Proof.
  assert (free_list_ok (T:=T) stack_pool_new) as Hnew.
  { exists []. constructor. }
  split; [done|].
  split; [apply push_free_list|].
  split; [apply pop_free_list|].
  split; [apply free_stack_free_list|].
  split; [apply step_free_list|].
  intros s Hreach.
  assert (free_list_ok s) as [fl Hfl].
  { induction Hreach as [|s1 s2 s3 Hstep _ IH]; [done|].
    apply IH. by eapply step_free_list. }
  exists fl. split; [done|]. by eapply chain_NoDup.
Qed.

(** ** LIFO order *)

(** Pushing [vs] onto a stack that is a chain [l0] holding [vs0], in a pool
    whose free list is a chain disjoint from it, yields a chain that holds
    the new values, last pushed first, followed by [vs0]. *)
Lemma push_all_chain vs :
  ∀ s h0 l0 vs0 fl,
    chain s h0 l0 → holds s l0 vs0 →
    chain s (free_nodes s) fl → (∀ x, x ∈ l0 → x ∉ fl) →
    (Z.of_nat (size s) + Z.of_nat (length vs) < modulus)%Z →
    ∃ h s' l, push_all T_init grow vs h0 s = Some (h, s') ∧
              chain s' h l ∧ holds s' l (rev vs ++ vs0) ∧
              length l = length vs + length l0.
Proof.
  induction vs as [|v vs IH]; intros s h0 l0 vs0 fl Hch Hvs Hfl Hdisj Hsz.
  - exists h0, s, l0. done.
  - assert (room s) as Hroom by (unfold room; simpl in Hsz; lia).
    destruct (push_chain s v h0 fl Hfl Hroom)
      as (h1 & s1 & Hrun & Hh1 & Hh10 & Hcase & Hnew & Hold & Hfl1 & Hsz1).
    pose proof (seg_nodes _ _ _ _ Hch) as Hnodes.
    rewrite Forall_forall in Hnodes.
    assert (∀ x, x ∈ l0 → node s1 x = node s x) as Hsame.
    { intros x Hx. destruct (Hnodes x Hx) as (Hxh & _ & [n Hn]).
      apply Hold; [done|]. intros ->.
      destruct Hcase as [Hcase|[_ Hnone]]; [|congruence].
      apply (Hdisj h1 Hx). rewrite Hcase. apply list_elem_of_here. }
    destruct (IH s1 h1 (h1 :: l0) (v :: vs0) (tail fl))
      as (h & s' & l & Hrun' & Hch' & Hvs' & Hlen).
    + apply (seg_cons _ h1 h0); [done|done| |].
      * unfold next. by rewrite Hnew.
      * by eapply seg_frame.
    + constructor.
      * unfold value. by rewrite Hnew.
      * by eapply holds_frame.
    + done.
    + intros x Hx Hin. apply elem_of_cons in Hx as [->|Hx].
      * destruct Hcase as [Hcase|[Hnil _]].
        -- pose proof (chain_NoDup _ _ _ Hfl) as Hnd.
           rewrite Hcase in Hnd. apply NoDup_cons in Hnd as [Hnot _]. done.
        -- rewrite Hnil in Hin. simpl in Hin. by apply elem_of_nil in Hin.
      * apply (Hdisj x Hx). destruct fl; [done|]. by apply list_elem_of_further.
    + simpl in Hsz. lia.
    + exists h, s', l. split.
      * cbn [push_all]. unfold mbind, M_bind. by rewrite Hrun.
      * split; [done|]. split.
        -- simpl. by rewrite <- app_assoc.
        -- rewrite Hlen. simpl. lia.
Qed.

(** ** Capacity *)

Lemma set_next_capacity x y s u s' :
  set_next x y s = Some (u, s') → capacity s' = capacity s.
Proof.
  destruct (node s x) as [n|] eqn:Hn.
  - rewrite (set_next_run _ _ _ _ Hn). by intros [= _ <-].
  - unfold set_next. by rewrite Hn.
Qed.

Lemma set_value_capacity x v s u s' :
  set_value x v s = Some (u, s') → capacity s' = capacity s.
Proof.
  destruct (node s x) as [n|] eqn:Hn.
  - rewrite (set_value_run _ _ _ _ Hn). by intros [= _ <-].
  - unfold set_value. by rewrite Hn.
Qed.

Lemma push_capacity val head s h s' :
  (∀ c, c ≤ grow c) →
  push T_init grow val head s = Some (h, s') → capacity s ≤ capacity s'.
Proof.
  intros Hgrow. unfold push, _push.
  unfold mbind, M_bind, mret, M_ret, read, get_free_nodes, set_free_nodes,
    push_back.
  simpl. case_decide; simpl.
  - destruct (next _ _) as [nx|]; [|done]. simpl.
    destruct (set_next _ _ _) as [[[] s2]|] eqn:Hs2; [|done].
    destruct (set_value _ _ _) as [[[] s3]|] eqn:Hs3; [|done].
    intros [= _ <-].
    apply set_next_capacity in Hs2. apply set_value_capacity in Hs3.
    rewrite Hs3, Hs2. unfold capacity. simpl. case_decide; [done|apply Hgrow].
  - destruct (next _ _) as [nx|]; [|done]. simpl.
    destruct (set_next _ _ _) as [[[] s2]|] eqn:Hs2; [|done].
    destruct (set_value _ _ _) as [[[] s3]|] eqn:Hs3; [|done].
    intros [= _ <-].
    apply set_next_capacity in Hs2. apply set_value_capacity in Hs3.
    rewrite Hs3, Hs2. done.
Qed.

Lemma pop_capacity head s h s' :
  pop head s = Some (h, s') → capacity s' = capacity s.
Proof.
  destruct (node s head) as [n|] eqn:Hn.
  - rewrite (pop_run _ _ _ Hn). by intros [= _ <-].
  - by rewrite pop_undefined.
Qed.

Lemma free_stack_capacity fuel head s r s' :
  free_stack fuel head s = Some (r, s') → capacity s' = capacity s.
Proof.
  unfold free_stack. case_match; [by intros [= _ <-]|].
  unfold mbind, M_bind, mret, M_ret, read, get_free_nodes, set_free_nodes.
  destruct (incr _ _) as [nx|]; [|done].
  destruct (free_stack_loop _ _ _ _ _) as [[cur s1]|] eqn:Hloop; [|done].
  apply free_stack_loop_state in Hloop as ->.
  destruct (set_next _ _ _) as [[[] s2]|] eqn:Hs2; [|done].
  intros [= _ <-]. by apply set_next_capacity in Hs2.
Qed.

Lemma reserve_capacity n s :
  ∃ s', reserve n s = Some ((), s') ∧
        capacity s ≤ capacity s' ∧ n ≤ capacity s' ∧ size s' = size s.
Proof.
  eexists. split; [done|]. unfold capacity, size. simpl.
  case_decide; repeat split; lia.
Qed.

Lemma run_op_capacity o s s' :
  (∀ c, c ≤ grow c) →
  run_op T_init grow o s = Some ((), s') → capacity s ≤ capacity s'.
Proof.
  intros Hgrow. destruct o as [|n|val head|head|fuel head]; simpl.
  - by intros [= <-].
  - destruct (reserve_capacity n s) as (s1 & -> & Hle & _). by intros [= <-].
  - unfold mbind, M_bind, mret, M_ret.
    destruct (push _ _ _ _ _) as [[h s1]|] eqn:Hrun; [|done].
    intros [= <-]. by eapply push_capacity.
  - unfold mbind, M_bind, mret, M_ret.
    destruct (pop _ _) as [[h s1]|] eqn:Hrun; [|done].
    intros [= <-]. apply pop_capacity in Hrun. lia.
  - unfold mbind, M_bind, mret, M_ret.
    destruct (free_stack _ _ _) as [[h s1]|] eqn:Hrun; [|done].
    intros [= <-]. apply free_stack_capacity in Hrun. lia.
Qed.

(** C7. When [push_back] never lowers the capacity of the vector, the
    capacity of the pool after any sequence of [new_stack], [reserve],
    [push], [pop] and [free_stack] calls is at least the capacity before it;
    and [reserve n], for any [n], returns with a capacity that is at least
    the former one and at least [n]. *)
Theorem capacity_monotone :
  (∀ c, c ≤ grow c) →
  (∀ os s s', run_ops T_init grow os s = Some ((), s') → capacity s ≤ capacity s') ∧
  (∀ n s, ∃ s', reserve n s = Some ((), s') ∧
                capacity s ≤ capacity s' ∧ n ≤ capacity s').
Proof.
  intros Hgrow. split.
  - induction os as [|o os IH]; intros s s'; simpl.
    + by intros [= <-].
    + unfold mbind, M_bind.
      destruct (run_op T_init grow o s) as [[[] s1]|] eqn:Hrun; [|done].
      intros Hrest. apply run_op_capacity in Hrun; [|done].
      apply IH in Hrest. lia.
  - intros n s. destruct (reserve_capacity n s) as (s' & Hrun & Hle & Hn & _).
    by exists s'.
Qed.

(** ** Cursors *)

(** C8. Two cursors compare equal exactly when their handles are equal,
    whatever pools they are bound to; [end(x)] is the same cursor for every
    [x], it sits on the sentinel, and the end cursors of any two stacks, of
    one pool or of two, compare equal. *)
Theorem iterator_eq_spec (P : Type) :
  (∀ a b : _iterator P, iter_eq a b = true ↔ it_head a = it_head b) ∧
  (∀ a b : _iterator P, iter_neq a b = true ↔ it_head a ≠ it_head b) ∧
  (∀ (p : P) x y, end_of p x = end_of p y) ∧
  (∀ (p : P) x, it_head (end_of p x) = end_) ∧
  (∀ (p q : P) x y, iter_eq (end_of p x) (end_of q y) = true) ∧
  (∀ a : _iterator P, iter_eq a (end_of (it_pool a) (it_head a)) = true ↔
                       it_head a = end_).
Proof.
  split; [|split; [|split; [|split; [|split]]]].
  - intros a b. unfold iter_eq. apply bool_decide_eq_true.
  - intros a b. unfold iter_neq, iter_eq.
    rewrite negb_true_iff. apply bool_decide_eq_false.
  - done.
  - done.
  - done.
  - intros a. unfold iter_eq. simpl. apply bool_decide_eq_true.
Qed.

(** C10. After [a = b] the cursor [a] has the handle of [b] and the pool it
    had before: dereferencing it reads the value of that handle in [a]'s
    pool and advancing it follows [next] in [a]'s pool, whatever pool [b]
    is bound to. *)
Theorem assign_keeps_pool (P : Type) (load : P → option (stack_pool (T:=T)))
    (a b : _iterator P) :
  it_head (assign a b) = it_head b ∧
  it_pool (assign a b) = it_pool a ∧
  deref load (assign a b) =
    (s ← load (it_pool a); value s (it_head b)) ∧
  incr load (assign a b) =
    (s ← load (it_pool a); h ← next s (it_head b);
     Some {| it_head := h; it_pool := it_pool a |}).
Proof. done. Qed.

(** ** Further properties of the operations *)

(** What [_push] has done whenever it returns: the node it returns is the
    free-list head [s1] had after the optional [push_back], and the result is
    [s1] with that node overwritten. *)
Lemma push_inv val head s h s' :
  _push T_init grow val head s = Some (h, s') →
  ∃ s1 n,
    (free_nodes s ≠ end_ ∧ s1 = s ∨
     free_nodes s = end_ ∧ size s1 = S (size s) ∧
       free_nodes s1 = wrap (Z.of_nat (S (size s)))) ∧
    h = free_nodes s1 ∧
    node s1 h = Some n ∧
    s' = with_node s1 h {| value_ := val; next_ := head |} (next_ n).
Proof.
  unfold _push.
  unfold mbind, M_bind, mret, M_ret, read, get_free_nodes, set_free_nodes,
    push_back.
  simpl. case_decide as Hfn; simpl.
  - set (v1 := vec_push_back grow _ (pool s)).
    set (h1 := wrap _).
    set (s1 := {| pool := v1; free_nodes := h1 |}).
    unfold next.
    change (node {| pool := v1; free_nodes := h1 |} h1) with (node s1 h1).
    destruct (node s1 h1) as [n|] eqn:Hn; [|done]. simpl.
    assert (node {| pool := pool s1; free_nodes := next_ n |} h1 = Some n)
      as Hn' by done.
    change {| pool := v1; free_nodes := next_ n |}
      with {| pool := pool s1; free_nodes := next_ n |}.
    rewrite (set_next_run _ _ _ _ Hn').
    pose proof (node_Some_lt _ _ _ Hn) as Hlt.
    erewrite set_value_run by (by apply node_with_node_eq).
    rewrite with_node_twice. intros [= <- <-].
    exists s1, n. split.
    + assert (∀ fn, size {| pool := v1; free_nodes := fn |} = S (size s)) as Hsz.
      { intros fn. unfold size, v1. simpl. rewrite length_app. simpl. lia. }
      right. split; [done|]. split; [apply Hsz|].
      unfold s1, h1. simpl. by rewrite Hsz.
    + split; [done|]. split; [done|]. done.
  - unfold next. destruct (node s (free_nodes s)) as [n|] eqn:Hn; [|done].
    simpl.
    assert (node {| pool := pool s; free_nodes := next_ n |} (free_nodes s)
            = Some n) as Hn' by done.
    rewrite (set_next_run _ _ _ _ Hn').
    pose proof (node_Some_lt _ _ _ Hn) as Hlt.
    erewrite set_value_run by (by apply node_with_node_eq).
    rewrite with_node_twice. intros [= <- <-].
    exists s, n. split; [by left|]. done.
Qed.

(** [_push] in closed form. *)
Lemma push_eq val head s :
  _push T_init grow val head s = pushed T_init grow val head s.
Proof.
  unfold pushed, push_prepared, _push.
  unfold mbind, M_bind, mret, M_ret, read, get_free_nodes, set_free_nodes,
    push_back.
  simpl. case_decide as Hfn; simpl.
  - set (v1 := vec_push_back grow _ (pool s)).
    assert (∀ fn, size {| pool := v1; free_nodes := fn |} = S (size s)) as Hsz.
    { intros fn. unfold size, v1. simpl. rewrite length_app. simpl. lia. }
    rewrite Hsz. set (h1 := wrap _).
    set (s1 := {| pool := v1; free_nodes := h1 |}).
    unfold next. destruct (node s1 h1) as [n|] eqn:Hn; [|done]. simpl.
    assert (node {| pool := pool s1; free_nodes := next_ n |} h1 = Some n)
      as Hn' by done.
    change {| pool := v1; free_nodes := next_ n |}
      with {| pool := pool s1; free_nodes := next_ n |}.
    rewrite (set_next_run _ _ _ _ Hn').
    pose proof (node_Some_lt _ _ _ Hn) as Hlt.
    erewrite set_value_run by (by apply node_with_node_eq).
    by rewrite with_node_twice.
  - unfold next. destruct (node s (free_nodes s)) as [n|] eqn:Hn; [|done].
    simpl.
    assert (node {| pool := pool s; free_nodes := next_ n |} (free_nodes s)
            = Some n) as Hn' by done.
    rewrite (set_next_run _ _ _ _ Hn').
    pose proof (node_Some_lt _ _ _ Hn) as Hlt.
    erewrite set_value_run by (by apply node_with_node_eq).
    by rewrite with_node_twice.
Qed.

(** Line 89 writes a [next] field: no value changes. *)
Lemma value_with_node_next s h n y fn x :
  node s h = Some n →
  value (with_node s h {| value_ := value_ n; next_ := y |} fn) x = value s x.
Proof.
  intros Hn. pose proof (node_Some_lt _ _ _ Hn) as Hlt.
  unfold value. rewrite !node_lookup. simpl.
  destruct (decide (idx x = idx h)) as [->|Hne].
  - rewrite list_lookup_insert_eq by done.
    rewrite node_lookup in Hn. by rewrite Hn.
  - by rewrite list_lookup_insert_ne.
Qed.

(** [push_back] keeps the values of the elements there were. *)
Lemma value_push_prepared s x v :
  value s x = Some v → value (push_prepared T_init grow s) x = Some v.
Proof.
  unfold push_prepared. case_decide; [|done].
  unfold value. rewrite !node_lookup. simpl. intros Hv.
  rewrite lookup_app_l; [done|].
  destruct (elems (pool s) !! idx x) as [n|] eqn:Hn; [|done].
  by eapply lookup_lt_Some.
Qed.

(** [_push_ref] is [_push] on the value the argument refers to, unless the
    argument is an element of the vector and [push_back] reallocates: then
    the read of line 90 is undefined. *)
Lemma push_ref_run val head s :
  _push_ref T_init grow val head s =
    match denotes s val with
    | None => None
    | Some v =>
        if dangling s val then None else _push T_init grow v head s
    end.
Proof.
  unfold _push_ref.
  unfold mbind at 1, M_bind at 1, read at 1.
  destruct (denotes s val) as [v|] eqn:Hv; [|done].
  rewrite push_eq. unfold pushed.
  unfold mbind, M_bind, mret, M_ret, read, get_free_nodes, set_free_nodes,
    push_back.
  simpl.
  assert (∀ s1 h n fn nh,
            node s1 h = Some n → value s1 nh = Some v →
            value (with_node {| pool := pool s1; free_nodes := fn |} h
                     {| value_ := value_ n; next_ := head |} fn) nh = Some v)
    as Hread.
  { intros s1 h n fn nh Hn Hnh.
    assert (node {| pool := pool s1; free_nodes := fn |} h = Some n) as Hn'
      by done.
    by rewrite (value_with_node_next _ _ _ _ _ _ Hn'). }
  pose proof (value_push_prepared s) as Hprep.
  unfold push_prepared in *. case_decide as Hfn; simpl.
  - set (v1 := vec_push_back grow _ (pool s)) in *.
    assert (∀ fn, size {| pool := v1; free_nodes := fn |} = S (size s)) as Hsz.
    { intros fn. unfold size, v1. simpl. rewrite length_app. simpl. lia. }
    rewrite Hsz. set (h1 := wrap _) in *.
    set (s1 := {| pool := v1; free_nodes := h1 |}) in *.
    unfold next. destruct (node s1 h1) as [n|] eqn:Hn.
    2:{ simpl. by destruct (dangling s val). }
    simpl.
    assert (node {| pool := pool s1; free_nodes := next_ n |} h1 = Some n)
      as Hn' by done.
    change {| pool := v1; free_nodes := next_ n |}
      with {| pool := pool s1; free_nodes := next_ n |}.
    rewrite (set_next_run _ _ _ _ Hn'). simpl.
    pose proof (node_Some_lt _ _ _ Hn) as Hlt.
    destruct val as [w|x]; simpl in *.
    + injection Hv as ->.
      erewrite set_value_run by (by apply node_with_node_eq).
      simpl. by rewrite with_node_twice.
    + rewrite (bool_decide_eq_true_2 (free_nodes s = end_)) by done. simpl.
      case_bool_decide as Hfull; simpl; [done|].
      change {| pool := v1; free_nodes := next_ n |}
        with {| pool := pool s1; free_nodes := next_ n |}.
      rewrite (Hread s1 h1 n (next_ n) x Hn (Hprep x v Hv)). simpl.
      erewrite set_value_run by (by apply node_with_node_eq).
      simpl. by rewrite with_node_twice.
  - unfold next. destruct (node s (free_nodes s)) as [n|] eqn:Hn.
    2:{ simpl. by destruct (dangling s val). }
    simpl.
    assert (node {| pool := pool s; free_nodes := next_ n |} (free_nodes s)
            = Some n) as Hn' by done.
    rewrite (set_next_run _ _ _ _ Hn'). simpl.
    pose proof (node_Some_lt _ _ _ Hn) as Hlt.
    destruct val as [w|x]; simpl in *.
    + injection Hv as ->.
      erewrite set_value_run by (by apply node_with_node_eq).
      simpl. by rewrite with_node_twice.
    + rewrite (bool_decide_eq_false_2 (free_nodes s = end_)) by done. simpl.
      rewrite (Hread s (free_nodes s) n (next_ n) x Hn Hv). simpl.
      erewrite set_value_run by (by apply node_with_node_eq).
      simpl. by rewrite with_node_twice.
Qed.

(** X1. Whenever [push] returns, the node it returns holds the value its
    argument referred to when the call was made, be it an object outside the
    vector or an element of the vector, and has the given head as its
    successor. *)
Theorem push_top val head s h s' :
  push_ref T_init grow val head s = Some (h, s') →
  ∃ v, denotes s val = Some v ∧
       value s' h = Some v ∧ next s' h = Some head.
Proof.
  unfold push_ref. rewrite push_ref_run.
  destruct (denotes s val) as [v|]; [|done].
  destruct (dangling s val); [done|]. intros Hrun.
  exists v. split; [done|].
  apply push_inv in Hrun as (s1 & n & _ & _ & Hn & ->).
  pose proof (node_Some_lt _ _ _ Hn) as Hlt.
  unfold value, next. by rewrite node_with_node_eq.
Qed.

(** X2. [pop] undoes [push]: on the handle a [push] returned, [pop] returns
    the head that was pushed onto, puts the node back at the head of the free
    list, and leaves the rest of the vector, its size and its capacity as the
    [push] left them. *)
Theorem push_pop val head s h s1 :
  push T_init grow val head s = Some (h, s1) →
  ∃ s2, pop h s1 = Some (head, s2) ∧
        free_nodes s2 = h ∧
        next s2 h = Some (free_nodes s1) ∧
        (∀ i, i ≠ idx h → elems (pool s2) !! i = elems (pool s1) !! i) ∧
        size s2 = size s1 ∧ capacity s2 = capacity s1.
Proof.
  intros Hrun. apply push_inv in Hrun as (s0 & n & _ & _ & Hn & ->).
  pose proof (node_Some_lt _ _ _ Hn) as Hlt.
  set (s1 := with_node s0 _ _ _).
  assert (node s1 h = Some {| value_ := val; next_ := head |}) as Hn1
    by (by apply node_with_node_eq).
  assert (idx h < size s1) as Hlt1
    by (unfold s1; by rewrite size_with_node).
  eexists. split; [exact (pop_run s1 h _ Hn1)|].
  split; [done|]. split.
  { unfold next. by rewrite node_with_node_eq. }
  split.
  { intros i Hi. simpl. by rewrite list_lookup_insert_ne. }
  split; [apply size_with_node | done].
Qed.

(** X3. While the vector has room, [push] never returns the sentinel: the
    stack it returns is not empty. *)
Theorem push_not_empty val head s h s' :
  room s →
  push T_init grow val head s = Some (h, s') →
  h ≠ end_ ∧ empty h = false.
Proof.
  intros Hroom Hrun.
  assert (h ≠ end_) as Hne.
  { apply push_inv in Hrun as (s1 & n & Hcase & -> & _ & _).
    destruct Hcase as [[Hfn ->]|(_ & _ & ->)]; [done|].
    unfold room, wrap, end_ in *. rewrite Z.mod_small; lia. }
  split; [done|]. unfold empty. by apply bool_decide_eq_false_2.
Qed.

(** X4. A handle designates a node exactly when it lies between 1 and the
    size of the vector; everywhere else, and in particular on the sentinel,
    [value], [next] and [pop] have no defined result. *)
Theorem node_bounds s x :
  (Z.of_nat (size s) < modulus)%Z → is_handle x →
  (is_Some (node s x) ↔ (1 ≤ x ≤ Z.of_nat (size s))%Z) ∧
  (¬ (1 ≤ x ≤ Z.of_nat (size s))%Z →
     value s x = None ∧ next s x = None ∧ pop x s = None).
Proof.
  intros Hsz Hx.
  assert (is_Some (node s x) ↔ (1 ≤ x ≤ Z.of_nat (size s))%Z) as Hiff.
  { rewrite node_lookup, lookup_lt_is_Some. fold (size s).
    destruct (decide (x = end_)) as [->|Hx0].
    - unfold idx. rewrite wrap_pred_end. unfold end_. lia.
    - unfold idx. rewrite wrap_pred by done.
      unfold is_handle, end_ in *. lia. }
  split; [done|]. intros Hout.
  assert (node s x = None) as Hnone.
  { destruct (node s x) as [n|] eqn:Hn; [|done].
    exfalso. apply Hout, Hiff. by eexists. }
  unfold value, next. rewrite Hnone. split; [done|]. split; [done|].
  by apply pop_undefined.
Qed.

Lemma free_stack_size fuel head s r s' :
  free_stack fuel head s = Some (r, s') → size s' = size s.
Proof.
  unfold free_stack. case_match; [by intros [= _ <-]|].
  unfold mbind, M_bind, mret, M_ret, read, get_free_nodes, set_free_nodes.
  destruct (incr _ _) as [nx|]; [|done].
  destruct (free_stack_loop _ _ _ _ _) as [[cur s1]|] eqn:Hloop; [|done].
  apply free_stack_loop_state in Hloop as ->.
  destruct (node s (ptr_to_stack cur)) as [n|] eqn:Hn.
  - rewrite (set_next_run _ _ _ _ Hn). intros [= _ <-]. apply size_with_node.
  - unfold set_next. by rewrite Hn.
Qed.

Lemma run_op_size o s s' :
  run_op T_init grow o s = Some ((), s') → size s ≤ size s'.
Proof.
  destruct o as [|n|val head|head|fuel head]; simpl.
  - by intros [= <-].
  - by intros [= <-].
  - unfold mbind, M_bind, mret, M_ret.
    destruct (push _ _ _ _ _) as [[h s1]|] eqn:Hrun; [|done].
    intros [= <-].
    apply push_inv in Hrun as (s0 & n & Hcase & _ & _ & ->).
    rewrite size_with_node.
    destruct Hcase as [[_ ->]|(_ & -> & _)]; lia.
  - unfold mbind, M_bind, mret, M_ret.
    destruct (node s head) as [n|] eqn:Hn.
    + rewrite (pop_run _ _ _ Hn). intros [= <-]. by rewrite size_with_node.
    + by rewrite pop_undefined.
  - unfold mbind, M_bind, mret, M_ret.
    destruct (free_stack _ _ _) as [[h s1]|] eqn:Hrun; [|done].
    intros [= <-]. apply free_stack_size in Hrun. lia.
Qed.

(** X5. The vector never shrinks: after any sequence of [new_stack],
    [reserve], [push], [pop] and [free_stack] calls it has at least as many
    nodes as before, so a handle that designated a node still designates
    one. *)
Theorem size_monotone os s s' :
  run_ops T_init grow os s = Some ((), s') →
  size s ≤ size s' ∧ ∀ x, is_Some (node s x) → is_Some (node s' x).
Proof.
  intros Hrun.
  assert (size s ≤ size s') as Hle.
  { revert s Hrun. induction os as [|o os IH]; intros s; simpl.
    - by intros [= <-].
    - unfold mbind, M_bind.
      destruct (run_op _ _ o s) as [[[] s1]|] eqn:Hop; [|done].
      intros Hrest. apply run_op_size in Hop. apply IH in Hrest. lia. }
  split; [done|]. intros x. rewrite !node_lookup, !lookup_lt_is_Some.
  unfold size in Hle. lia.
Qed.

(** ** Stacks that share a pool *)

(** A traversal only depends on the nodes of the chain it runs along. *)
Lemma contents_unchanged s s' h l vs fuel :
  chain s h l → holds s l vs →
  (∀ x, x ∈ l → node s' x = node s x) →
  length l ≤ fuel →
  contents fuel s' h = Some vs.
Proof.
  intros Hch Hvs Hsame Hfuel.
  eapply contents_chain; [by eapply seg_frame | by eapply holds_frame | done].
Qed.

Lemma chain_is_handle s h l x : chain s h l → x ∈ l → is_handle x.
Proof.
  intros Hch Hx. pose proof (seg_nodes _ _ _ _ Hch) as Hnodes.
  rewrite Forall_forall in Hnodes. by apply Hnodes.
Qed.

(** For arguments outside the vector the two runs of pushes agree. *)
Lemma push_all_ref_outside vs :
  ∀ head s,
    push_all_ref T_init grow (Outside <$> vs) head s
    = push_all T_init grow vs head s.
Proof.
  induction vs as [|v vs IH]; intros head s; [done|].
  cbn [push_all_ref push_all fmap list_fmap]. unfold mbind, M_bind.
  unfold push_ref, push. rewrite push_ref_run. simpl.
  destruct (_push T_init grow v head s) as [[h s1]|]; [apply IH | done].
Qed.

(** X6. Pushing values that are objects outside the pool's vector onto a
    stack that already holds [vs0], in a pool whose free list is a chain
    disjoint from that stack, gives a stack whose traversal yields the new
    values, last pushed first, and then [vs0]. *)
Theorem push_all_onto vs s head l0 vs0 fl :
  chain s head l0 → holds s l0 vs0 →
  chain s (free_nodes s) fl → (∀ x, x ∈ l0 → x ∉ fl) →
  (Z.of_nat (size s) + Z.of_nat (length vs) < modulus)%Z →
  ∃ h s', push_all_ref T_init grow (Outside <$> vs) head s = Some (h, s') ∧
          ∀ fuel, length vs + length l0 ≤ fuel →
                  contents fuel s' h = Some (rev vs ++ vs0).
Proof.
  intros Hch Hvs Hfl Hdisj Hsz. rewrite push_all_ref_outside.
  destruct (push_all_chain vs s head l0 vs0 fl Hch Hvs Hfl Hdisj Hsz)
    as (h & s' & l & Hrun & Hch' & Hvs' & Hlen).
  exists h, s'. split; [done|]. intros fuel Hfuel.
  eapply contents_chain; [done..|]. lia.
Qed.

(** X17. [push(value(x), head)] has no defined result when the free list is
    empty and the vector is full: [push_back] reallocates the vector, and
    line 90 then reads the argument through a reference into the storage
    that was released. *)
Theorem push_ref_dangling x head s :
  free_nodes s = end_ → capacity s ≤ size s →
  push_ref T_init grow (Element x) head s = None.
Proof.
  intros Hfn Hfull. unfold push_ref. rewrite push_ref_run.
  destruct (denotes s (Element x)) as [v|]; [|done].
  unfold dangling.
  rewrite (bool_decide_eq_true_2 (free_nodes s = end_)) by done.
  rewrite bool_decide_eq_true_2 by lia. done.
Qed.

(** X18. In every other case an argument that is an element of the vector
    is as good as any: pushing an argument that refers to the value [v],
    onto a stack that holds [vs0] in a pool whose free list is a chain
    disjoint from it, returns a head whose traversal yields [v :: vs0]. *)
Theorem push_ref_onto val v head s l0 vs0 fl :
  chain s head l0 → holds s l0 vs0 →
  chain s (free_nodes s) fl → (∀ x, x ∈ l0 → x ∉ fl) →
  room s →
  denotes s val = Some v → dangling s val = false →
  ∃ h s', push_ref T_init grow val head s = Some (h, s') ∧
          ∀ fuel, length l0 < fuel → contents fuel s' h = Some (v :: vs0).
Proof.
  intros Hch Hvs Hfl Hdisj Hroom Hden Hdang.
  unfold push_ref. rewrite push_ref_run, Hden, Hdang.
  destruct (push_all_chain [v] s head l0 vs0 fl Hch Hvs Hfl Hdisj)
    as (h & s' & l & Hrun & Hch' & Hvs' & Hlen).
  { unfold room in Hroom. simpl. lia. }
  cbn [push_all] in Hrun. unfold mbind, M_bind, mret, M_ret, push in Hrun.
  destruct (_push T_init grow v head s) as [[h1 s1]|]; [|done].
  injection Hrun as -> ->.
  exists h, s'. split; [done|]. intros fuel Hfuel.
  eapply contents_chain; [done..|]. simpl in Hlen. lia.
Qed.

(** X7. A [push] does not disturb the other stacks of the pool: every chain
    that is disjoint from the free list is the same chain afterwards, does not
    contain the node the [push] returns, and has the same traversal. *)
Theorem push_isolation val head s fl hB lB vsB :
  chain s (free_nodes s) fl → room s →
  chain s hB lB → holds s lB vsB → (∀ x, x ∈ lB → x ∉ fl) →
  ∃ h s', push T_init grow val head s = Some (h, s') ∧
          (h ∉ lB) ∧
          chain s' hB lB ∧
          ∀ fuel, length lB ≤ fuel → contents fuel s' hB = Some vsB.
Proof.
  intros Hfl Hroom HchB HvsB Hdisj.
  destruct (push_chain s val head fl Hfl Hroom)
    as (h & s' & Hrun & Hh & Hh0 & Hcase & _ & Hold & _ & _).
  assert (h ∉ lB) as Hnot.
  { intros Hin. destruct Hcase as [Hcase|[_ Hnone]].
    - apply (Hdisj h Hin). rewrite Hcase. apply list_elem_of_here.
    - pose proof (seg_nodes _ _ _ _ HchB) as Hnodes.
      rewrite Forall_forall in Hnodes.
      destruct (Hnodes h Hin) as (_ & _ & [n Hn]). congruence. }
  assert (∀ x, x ∈ lB → node s' x = node s x) as Hsame.
  { intros x Hx. apply Hold; [by eapply chain_is_handle|]. by intros ->. }
  exists h, s'. split; [done|]. split; [done|].
  split; [by eapply seg_frame|].
  intros fuel Hfuel. by eapply contents_unchanged.
Qed.

(** X8. [pop] removes the top of a stack: on the head of a chain that holds
    [v :: vs] it returns a head whose traversal yields [vs]; and every chain
    that does not contain the popped node keeps its traversal. *)
Theorem pop_stack s head l v vs :
  chain s head l → holds s l (v :: vs) →
  ∃ nx s', pop head s = Some (nx, s') ∧
           (∀ fuel, length l ≤ S fuel → contents fuel s' nx = Some vs) ∧
           (∀ hB lB vsB fuel,
              chain s hB lB → holds s lB vsB → head ∉ lB →
              length lB ≤ fuel → contents fuel s' hB = Some vsB).
Proof.
  intros Hch Hvs.
  destruct l as [|x l]; [inversion Hvs|].
  pose proof (chain_NoDup _ _ _ Hch) as Hnd.
  apply NoDup_cons in Hnd as [Hxl _].
  apply chain_cons_inv in Hch as (-> & Hx0 & Hx & nx & Hnx & Hrest).
  apply Forall2_cons in Hvs as [_ Hvs].
  unfold next in Hnx. destruct (node s x) as [n|] eqn:Hn; [|done].
  simpl in Hnx. injection Hnx as <-.
  exists (next_ n). eexists. split; [by apply pop_run|].
  assert (∀ (lB : list Z) y, x ∉ lB → (∀ z, z ∈ lB → is_handle z) → y ∈ lB →
            node (with_node s x {| value_ := value_ n; next_ := free_nodes s |} x) y
            = node s y) as Hsame.
  { intros lB y Hnot Hhs Hy. apply node_with_node_ne; [done|by apply Hhs|].
    by intros ->. }
  split.
  - intros fuel Hfuel. eapply contents_unchanged; [done..| |simpl in Hfuel; lia].
    intros y Hy. apply (Hsame l y); [done| |done].
    intros z Hz. by eapply chain_is_handle.
  - intros hB lB vsB fuel HchB HvsB Hnot Hfuel.
    eapply contents_unchanged; [done..| |done].
    intros y Hy. apply (Hsame lB y); [done| |done].
    intros z Hz. by eapply chain_is_handle.
Qed.

(** X9. [free_stack] does not disturb a stack that does not run into the
    freed one: every chain that does not contain the last node of the freed
    chain is the same chain afterwards, with the same traversal. *)
Theorem free_stack_isolation fuel s head l tl hB lB vsB :
  chain s head (l ++ [tl]) → length l ≤ fuel →
  chain s hB lB → holds s lB vsB → tl ∉ lB →
  ∃ s', free_stack fuel head s = Some (end_, s') ∧
        chain s' hB lB ∧
        ∀ fuelB, length lB ≤ fuelB → contents fuelB s' hB = Some vsB.
Proof.
  intros Hch Hfuel HchB HvsB Hnot.
  destruct (free_stack_chain s head l tl fuel Hch Hfuel)
    as (n & s' & Hn & -> & Hrun & Htlh & Htl0 & _).
  assert (∀ x, x ∈ lB →
            node (with_node s tl {| value_ := value_ n; next_ := free_nodes s |} head) x
            = node s x) as Hsame.
  { intros x Hx. apply node_with_node_ne; [done|by eapply chain_is_handle|].
    by intros ->. }
  eexists. split; [done|]. split; [by eapply seg_frame|].
  intros fuelB HfuelB. by eapply contents_unchanged.
Qed.

(** The last node of a chain is the one whose successor is the sentinel. *)
Lemma chain_ends_with s h l x :
  chain s h l → x ∈ l → next s x = Some end_ → ∃ l1, l = l1 ++ [x].
Proof.
  intros Hch Hx Hnx.
  destruct (chain_suffix s h l x Hch Hx) as (l1 & l2 & -> & Hsuf).
  apply chain_cons_inv in Hsuf as (_ & _ & _ & nx & Hnx' & Hrest).
  rewrite Hnx in Hnx'. injection Hnx' as <-.
  destruct l2 as [|y l2]; [by exists l1|].
  apply chain_cons_inv in Hrest as (<- & Hy0 & _). done.
Qed.

(** X10. Two stacks that share a tail are not protected from each other:
    after [free_stack] on one of them, the other still starts with its own
    nodes but then runs on through what was the free list. *)
Theorem free_stack_aliasing fuel s head l tl hB lB fl :
  chain s head (l ++ [tl]) → length l ≤ fuel →
  chain s hB lB → tl ∈ lB →
  chain s (free_nodes s) fl → tl ∉ fl →
  ∃ s', free_stack fuel head s = Some (end_, s') ∧
        chain s' hB (lB ++ fl) ∧
        chain s' (free_nodes s') ((l ++ [tl]) ++ fl).
Proof.
  intros Hch Hfuel HchB HtlB Hfl Hnot.
  destruct (free_stack_chain s head l tl fuel Hch Hfuel)
    as (n & s' & Hn & Hs' & Hrun & Htlh & Htl0 & Hseg).
  pose proof (node_Some_lt _ _ _ Hn) as Hlt.
  assert (next s tl = Some end_) as Hend.
  { apply seg_app_inv in Hch as (m & _ & Hlast).
    apply chain_cons_inv in Hlast as (_ & _ & _ & nx & Hnx & Hnil).
    apply chain_nil_inv in Hnil as ->. done. }
  destruct (chain_ends_with s hB lB tl HchB HtlB Hend) as (l1 & ->).
  pose proof (chain_NoDup _ _ _ HchB) as Hnd.
  apply list.NoDup_app in Hnd as (_ & Hdisj & _).
  assert (chain s' (free_nodes s) fl) as Hfl'.
  { subst s'. eapply seg_frame; [|done]. intros x Hx.
    apply node_with_node_ne; [done|by eapply chain_is_handle|]. by intros ->. }
  assert (next s' tl = Some (free_nodes s)) as Hnx'.
  { subst s'. unfold next. by rewrite node_with_node_eq. }
  exists s'. split; [done|]. split.
  - apply seg_app_inv in HchB as (m & Hl1 & Hlast).
    apply chain_cons_inv in Hlast as (-> & _).
    rewrite <- app_assoc. apply seg_app with tl.
    + subst s'. eapply seg_frame; [|done]. intros x Hx.
      apply node_with_node_ne; [done| |].
      * pose proof (seg_nodes _ _ _ _ Hl1) as Hnodes.
        rewrite Forall_forall in Hnodes. by apply Hnodes.
      * intros ->. apply (Hdisj _ Hx). apply list_elem_of_here.
    + simpl. by apply (seg_cons _ tl (free_nodes s)).
  - assert (free_nodes s' = head) as -> by (by subst s').
    by eapply seg_app.
Qed.

(** ** Outside the contract *)

(** X11. Popping the same handle twice in a row makes the node its own
    successor: the free list is no longer a chain, and the next two [push]
    calls both return that one node. *)
Theorem pop_twice s head v1 h1 v2 h2 :
  head ≠ end_ → is_Some (node s head) →
  ∃ nx s1 s2 s3 s4,
    pop head s = Some (nx, s1) ∧
    pop head s1 = Some (free_nodes s, s2) ∧
    next s2 head = Some head ∧
    ¬ free_list_ok s2 ∧
    push T_init grow v1 h1 s2 = Some (head, s3) ∧
    push T_init grow v2 h2 s3 = Some (head, s4).
Proof.
  intros Hh0 [n Hn].
  pose proof (node_Some_lt _ _ _ Hn) as Hlt.
  set (n1 := {| value_ := value_ n; next_ := free_nodes s |}).
  set (s1 := with_node s head n1 head).
  assert (node s1 head = Some n1) as Hn1 by (by apply node_with_node_eq).
  set (n2 := {| value_ := value_ n1; next_ := free_nodes s1 |}).
  set (s2 := with_node s1 head n2 head).
  assert (idx head < size s1) as Hlt1 by (unfold s1; by rewrite size_with_node).
  assert (node s2 head = Some n2) as Hn2 by (by apply node_with_node_eq).
  assert (idx head < size s2) as Hlt2 by (unfold s2; by rewrite size_with_node).
  set (n3 := {| value_ := v1; next_ := h1 |}).
  set (s3 := with_node s2 head n3 head).
  assert (node s3 head = Some n3) as Hn3 by (by apply node_with_node_eq).
  exists (next_ n), s1, s2, s3. eexists.
  split; [by apply pop_run|].
  split; [exact (pop_run s1 head n1 Hn1)|].
  split; [unfold next; by rewrite Hn2|].
  split.
  { intros [fl Hfl].
    destruct fl as [|x l]; [by apply chain_nil_inv in Hfl|].
    apply chain_cons_inv in Hfl as Hinv.
    destruct Hinv as (Hx & _ & _ & nx & Hnx & Hrest).
    simpl in Hx. subst x.
    unfold next in Hnx. rewrite Hn2 in Hnx.
    injection Hnx as <-. simpl in Hrest.
    pose proof (chain_inj _ _ _ _ Hfl Hrest) as Heq.
    apply (f_equal length) in Heq. simpl in Heq. lia. }
  split; [exact (push_reuse s2 v1 h1 n2 Hh0 Hn2)|].
  exact (push_reuse s3 v2 h2 n3 Hh0 Hn3).
Qed.

Lemma typed_next s x y : typed s → next s x = Some y → is_handle y.
Proof.
  unfold typed, next. rewrite node_lookup, Forall_lookup.
  intros Hty Hnx. destruct (elems (pool s) !! idx x) as [n|] eqn:Hn; [|done].
  injection Hnx as <-. by eapply Hty.
Qed.

Lemma free_stack_loop_chain fuel :
  ∀ s head cur nx r s',
    typed s → is_handle (it_head nx) →
    free_stack_loop fuel head cur nx s = Some (r, s') →
    ∃ l, chain s (it_head nx) l ∧ length l ≤ fuel.
Proof.
  induction fuel as [|fuel IH]; intros s head cur nx r s' Hty Hh; simpl.
  - unfold iter_neq, iter_eq. simpl. case_bool_decide as Heq; [|done].
    intros _. exists []. rewrite Heq. split; [constructor | done].
  - unfold iter_neq, iter_eq. simpl. case_bool_decide as Heq; simpl.
    { intros _. exists []. rewrite Heq. split; [constructor | simpl; lia]. }
    unfold post_incr, incr. simpl.
    destruct (next s (it_head nx)) as [y|] eqn:Hnx; [|done]. simpl.
    intros Hloop.
    apply IH in Hloop as (l & Hl & Hlen); [|done|simpl; by eapply typed_next].
    exists (it_head nx :: l). split; [|simpl; lia].
    by apply (seg_cons _ _ y).
Qed.

(** X12. In a pool whose [next] fields are handles, [free_stack] returns
    only if following [next] from [head] arrives at the sentinel: whenever it
    returns, [head] starts a chain. *)
Theorem free_stack_needs_chain fuel s head r s' :
  typed s → is_handle head →
  free_stack fuel head s = Some (r, s') →
  ∃ l, chain s head l ∧ length l ≤ S fuel.
Proof.
  intros Hty Hh. unfold free_stack, empty. case_bool_decide as Hh0.
  { intros _. exists []. rewrite Hh0. split; [constructor | simpl; lia]. }
  unfold mbind, M_bind, mret, M_ret, read, get_free_nodes, set_free_nodes.
  unfold incr. simpl.
  destruct (next s head) as [y|] eqn:Hnx; [|done]. simpl.
  destruct (free_stack_loop _ _ _ _ _) as [[cur s1]|] eqn:Hloop; [|done].
  intros _.
  apply free_stack_loop_chain in Hloop as (l & Hl & Hlen);
    [|done|simpl; by eapply typed_next].
  exists (head :: l). split; [|simpl; lia].
  by apply (seg_cons _ _ y).
Qed.

(** ** Writing a value in place *)

(** A segment only depends on the [next] fields of the nodes it visits. *)
Lemma seg_frame_next s s' h l t :
  (∀ x, x ∈ l → next s' x = next s x) →
  seg s h l t → seg s' h l t.
Proof.
  intros Hsame Hseg. induction Hseg as [|h nx l t Hh0 Hh Hnx _ IH];
    [constructor|].
  econstructor; try done.
  - rewrite Hsame; [done | apply list_elem_of_here].
  - apply IH. intros x Hx. apply Hsame. by apply list_elem_of_further.
Qed.

Lemma holds_frame_value s s' l vs :
  (∀ y, y ∈ l → value s' y = value s y) →
  holds s l vs → holds s' l vs.
Proof.
  unfold holds. intros Hsame Hh.
  induction Hh as [|x v l vs Hv _ IH]; constructor.
  - rewrite Hsame; [done | apply list_elem_of_here].
  - apply IH. intros y Hy. apply Hsame. by apply list_elem_of_further.
Qed.

Lemma holds_update s s' l x v :
  ∀ vs i,
    NoDup l → holds s l vs → l !! i = Some x →
    value s' x = Some v →
    (∀ y, y ∈ l → y ≠ x → value s' y = value s y) →
    holds s' l (<[i:=v]> vs).
Proof.
  induction l as [|y l IH]; intros vs i Hnd Hvs Hi Hx Hother; [done|].
  inversion Hvs as [|? w ? vs' Hw Hvs']; subst.
  apply NoDup_cons in Hnd as [Hyl Hnd].
  destruct i as [|i]; simpl in *.
  - injection Hi as ->. constructor; [done|].
    apply (holds_frame_value s); [|done].
    intros z Hz. apply Hother; [by apply list_elem_of_further|].
    by intros ->.
  - constructor.
    + rewrite Hother; [done | apply list_elem_of_here |].
      intros ->. apply Hyl. by eapply list_elem_of_lookup_2.
    + apply IH; try done. intros z Hz Hne.
      apply Hother; [|done]. by apply list_elem_of_further.
Qed.

(** X13. Assigning through [value(x)], as [*it = v] does, replaces the
    value of that one position of the traversal: when [x] is the [i]-th node
    of a chain that holds [vs], the chain is the same afterwards and its
    traversal yields [vs] with the [i]-th value replaced by [v]. *)
Theorem set_value_stack s head l vs i x v :
  chain s head l → holds s l vs → l !! i = Some x →
  ∃ s', set_value x v s = Some ((), s') ∧
        free_nodes s' = free_nodes s ∧
        chain s' head l ∧
        ∀ fuel, length l ≤ fuel →
                contents fuel s' head = Some (<[i:=v]> vs).
Proof.
  intros Hch Hvs Hi.
  assert (x ∈ l) as Hx by (by eapply list_elem_of_lookup_2).
  pose proof (seg_nodes _ _ _ _ Hch) as Hnodes.
  rewrite Forall_forall in Hnodes.
  destruct (Hnodes x Hx) as (Hxh & Hx0 & [n Hn]).
  pose proof (node_Some_lt _ _ _ Hn) as Hlt.
  eexists. split; [by apply set_value_run|].
  set (s' := with_node s x _ _).
  assert (∀ y, is_handle y → next s' y = next s y) as Hnext.
  { intros y Hy. unfold next. destruct (decide (y = x)) as [->|Hne].
    - unfold s'. rewrite node_with_node_eq by done. by rewrite Hn.
    - unfold s'. by rewrite node_with_node_ne. }
  assert (chain s' head l) as Hch'.
  { eapply seg_frame_next; [|done]. intros y Hy. apply Hnext.
    by apply Hnodes. }
  split; [done|]. split; [done|].
  intros fuel Hfuel. eapply contents_chain; [done| |done].
  eapply holds_update; [by eapply chain_NoDup|done..| |].
  - unfold value, s'. by rewrite node_with_node_eq.
  - intros y Hy Hne. unfold value, s'.
    rewrite node_with_node_ne; [done|done|by apply Hnodes|done].
Qed.

(** ** Allocation *)

Lemma push_all_within_capacity vs :
  ∀ s head,
    free_nodes s = end_ →
    size s + length vs ≤ capacity s →
    (Z.of_nat (capacity s) < modulus)%Z →
    ∃ h s', push_all T_init grow vs head s = Some (h, s') ∧
            capacity s' = capacity s ∧
            size s' = size s + length vs ∧
            free_nodes s' = end_ ∧
            h = match vs with [] => head | _ => Z.of_nat (size s') end.
Proof.
  induction vs as [|v vs IH]; intros s head Hfn Hcap Hmod.
  - exists head, s. repeat split; try done; simpl; lia.
  - simpl in Hcap.
    assert (room s) as Hroom by (unfold room; lia).
    pose proof (push_fresh s v head Hfn Hroom) as Hpush.
    set (s1 := appended grow s v head) in *.
    assert (size s1 = S (size s)) as Hsz1.
    { unfold size, s1, appended. simpl. rewrite length_app. simpl. lia. }
    assert (capacity s1 = capacity s) as Hcap1.
    { unfold capacity at 1, s1, appended. simpl. case_decide; [done | lia]. }
    destruct (IH s1 (Z.of_nat (size s) + 1)%Z) as (h & s' & Hrun & Hc & Hs & Hf & Hh).
    + done.
    + rewrite Hsz1, Hcap1. lia.
    + by rewrite Hcap1.
    + exists h, s'. split.
      { cbn [push_all]. unfold mbind, M_bind, push. by rewrite Hpush. }
      split; [congruence|]. split; [simpl; lia|]. split; [done|].
      destruct vs; [|done]. rewrite Hh, Hs, Hsz1. simpl. lia.
Qed.

(** X14. While the vector has spare capacity it is not reallocated: with an
    empty free list and room for the values within the capacity, pushing
    values that are objects outside the vector returns, the capacity is what
    it was, one node is appended per value, the free list is still empty and
    the head returned is the last node of the vector. *)
Theorem push_within_capacity vs s head :
  free_nodes s = end_ →
  size s + length vs ≤ capacity s →
  (Z.of_nat (capacity s) < modulus)%Z →
  ∃ h s', push_all_ref T_init grow (Outside <$> vs) head s = Some (h, s') ∧
          capacity s' = capacity s ∧
          size s' = size s + length vs ∧
          free_nodes s' = end_ ∧
          (vs ≠ [] → h = Z.of_nat (size s')).
Proof.
  intros Hfn Hcap Hmod. rewrite push_all_ref_outside.
  destruct (push_all_within_capacity vs s head Hfn Hcap Hmod)
    as (h & s' & Hrun & Hc & Hs & Hf & Hh).
  exists h, s'. repeat split; try done.
  intros Hne. by destruct vs.
Qed.

(** X15. A run of [push] calls first uses up the free list, in its order,
    and only then appends: with a free list [fl], the handles returned are
    the first nodes of [fl] followed by the handles of freshly appended
    nodes, the vector grows by the number of calls beyond the length of
    [fl], and what is left of [fl] is the free list afterwards. *)
Theorem push_each_alloc args :
  ∀ s fl,
    chain s (free_nodes s) fl →
    (Z.of_nat (size s) + Z.of_nat (length args) < modulus)%Z →
    ∃ hs s', push_each T_init grow args s = Some (hs, s') ∧
             hs = take (length args) fl ++
                  ((λ j, Z.of_nat (size s + j)) <$>
                     seq 1 (length args - length fl)) ∧
             size s' = size s + (length args - length fl) ∧
             chain s' (free_nodes s') (drop (length args) fl).
Proof.
  induction args as [|[val head] args IH]; intros s fl Hfl Hsz.
  - exists [], s. split; [done|]. split; [done|]. split; [simpl; lia|].
    by rewrite drop_0.
  - simpl in Hsz.
    assert (room s) as Hroom by (unfold room; lia).
    destruct fl as [|x fl].
    + apply chain_nil_inv in Hfl as Hfn.
      pose proof (push_fresh s val head Hfn Hroom) as Hpush.
      set (s1 := appended grow s val head) in *.
      assert (size s1 = S (size s)) as Hsz1.
      { unfold size, s1, appended. simpl. rewrite length_app. simpl. lia. }
      destruct (IH s1 []) as (hs & s' & Hrun & Hhs & Hs & Hch).
      { constructor. }
      { rewrite Hsz1. lia. }
      exists ((Z.of_nat (size s) + 1)%Z :: hs), s'. split.
      { cbn [push_each]. unfold mbind, M_bind, mret, M_ret, push.
        rewrite Hpush. by rewrite Hrun. }
      split.
      { rewrite Hhs. simpl. rewrite !Nat.sub_0_r, take_nil. simpl.
        f_equal; [lia|].
        rewrite <- (fmap_S_seq 1 (length args)), <- list_fmap_compose.
        apply list_fmap_ext. intros i j _. simpl. rewrite Hsz1. lia. }
      split; [simpl in *; lia|]. rewrite drop_nil in Hch. by rewrite drop_nil.
    + apply chain_cons_inv in Hfl as Hinv.
      destruct Hinv as (Hfn & Hx0 & Hx & nx & Hnx & Hrest).
      pose proof (chain_NoDup _ _ _ Hfl) as Hnd.
      apply NoDup_cons in Hnd as [Hxl _].
      unfold next in Hnx. rewrite Hfn in *.
      destruct (node s x) as [n|] eqn:Hn; [|done].
      simpl in Hnx. injection Hnx as <-.
      assert (push T_init grow val head s
              = Some (x, with_node s x {| value_ := val; next_ := head |} (next_ n)))
        as Hpush.
      { unfold push. rewrite <- Hfn. apply push_reuse; by rewrite Hfn. }
      set (s1 := with_node s x _ _) in Hpush.
      destruct (IH s1 fl) as (hs & s' & Hrun & Hhs & Hs & Hch).
      { simpl. eapply seg_frame; [|done]. intros y Hy.
        apply node_with_node_ne; [done|by eapply chain_is_handle|].
        by intros <-. }
      { unfold s1. rewrite size_with_node. lia. }
      exists (x :: hs), s'. split.
      { cbn [push_each]. unfold mbind, M_bind, mret, M_ret.
        rewrite Hpush. by rewrite Hrun. }
      unfold s1 in Hhs, Hs. rewrite size_with_node in Hhs, Hs.
      split; [by rewrite Hhs|]. split; [simpl; lia|]. done.
Qed.

(** ** Ranges *)

(** X16. A cursor that runs from [h] until it compares equal to a cursor on
    [t] meets the values of the nodes between them, whatever pool the second
    cursor is bound to: a range ends at any handle, not only at the
    sentinel. *)
Theorem traverse_range (P : Type) (load : P → option (stack_pool (T:=T)))
    (p q : P) s h l t vs fuel :
  load p = Some s →
  seg s h l t → t ∉ l → holds s l vs → length l ≤ fuel →
  traverse load fuel (begin p h) (begin q t) = Some vs.
Proof.
  intros Hload Hseg. revert vs fuel.
  induction Hseg as [t|h nx l t Hh0 Hh Hnx _ IH]; intros vs fuel Hnot Hvs Hfuel.
  - inversion Hvs. destruct fuel; simpl; unfold iter_neq, iter_eq; simpl;
      by rewrite bool_decide_eq_true_2.
  - inversion Hvs as [|? v ? vs' Hv Hvs']; subst.
    apply not_elem_of_cons in Hnot as [Hne Hnot].
    simpl in Hfuel. destruct fuel as [|fuel]; [lia|].
    cbn [traverse]. unfold iter_neq, iter_eq. simpl.
    rewrite bool_decide_eq_false_2 by done. simpl.
    unfold deref, incr. simpl. rewrite Hload. simpl. rewrite Hv, Hnx. simpl.
    fold (begin p nx). fold (begin q t).
    rewrite (IH vs' fuel) by (done || lia). done.
Qed.

End Properties.

(** ** The theorems at concrete pools *)

Lemma ex_pool_stack : chain ex_pool 3 [3; 2; 1]%Z.
Proof. unfold chain. chain_tac. Defined.

Lemma ex_pool_free_list : chain ex_pool (free_nodes ex_pool) [5; 4]%Z.
Proof. unfold chain. chain_tac. Defined.

Lemma grow_double_ge c : c ≤ grow_double c.
Proof. unfold grow_double. lia. Defined.

Lemma pop_spec_witness :
  is_handle 3 ∧ 3%Z ≠ end_ ∧ next ex_pool 3 = Some 2%Z ∧
  ∃ s', pop 3 ex_pool = Some (2%Z, s') ∧
        next s' 3 = Some 5%Z ∧ free_nodes s' = 3%Z ∧
        value s' 3 = Some 30%Z ∧ size s' = 5 ∧ capacity s' = 8.
Proof.
  assert (is_handle 3) as H1 by handle_tac.
  assert (3%Z ≠ end_) as H2 by discriminate.
  assert (next ex_pool 3 = Some 2%Z) as H3 by reflexivity.
  split; [exact H1|]. split; [exact H2|]. split; [exact H3|].
  destruct (pop_spec ex_pool 3 2 H1 H2 H3)
    as (s' & Hrun & Hnx & Hfn & Hv & _ & _ & Hsz & Hcap).
  exists s'. repeat split; assumption.
Defined.

Lemma push_free_list_first_witness :
  (∃ s', push 0%Z grow_double 99%Z 3 ex_pool = Some (5%Z, s') ∧
         free_nodes s' = 4%Z ∧ size s' = 5 ∧ capacity s' = 8) ∧
  (∃ s', push 0%Z grow_double 99%Z 0 stack_pool_new = Some (1%Z, s') ∧
         size s' = 1) ∧
  (∃ h1 s1 s2, pop 3 ex_pool = Some (h1, s1) ∧
               size s1 = 5 ∧ capacity s1 = 8 ∧
               push 0%Z grow_double 99%Z 0 s1 = Some (3%Z, s2) ∧
               size s2 = 5 ∧ capacity s2 = 8).
Proof.
  destruct (push_free_list_first 0%Z grow_double ex_pool 99%Z 3) as (Ha & _ & _).
  destruct (push_free_list_first 0%Z grow_double stack_pool_new 99%Z 0)
    as (_ & Hb & _).
  destruct (push_free_list_first 0%Z grow_double ex_pool 99%Z 0) as (_ & _ & Hc).
  split; [|split].
  - apply (Ha {| value_ := 50%Z; next_ := 4 |}); [discriminate | reflexivity].
  - apply Hb; reflexivity.
  - apply (Hc 3%Z); [handle_tac | discriminate | eexists; reflexivity].
Defined.

Lemma free_stack_spec_witness :
  chain ex_pool 3 ([3; 2] ++ [1])%Z ∧ length [3; 2]%Z ≤ 2 ∧
  ∃ s', free_stack 2 3 ex_pool = Some (end_, s') ∧
        next s' 1 = Some 5%Z ∧ free_nodes s' = 3%Z ∧
        chain s' (free_nodes s') [3; 2; 1; 5; 4]%Z.
Proof.
  split; [exact ex_pool_stack|]. split; [simpl; lia|].
  destruct (@free_stack_spec Z) as (_ & _ & Hchain).
  destruct (Hchain 2 ex_pool 3%Z [3; 2]%Z 1%Z ex_pool_stack ltac:(simpl; lia))
    as (s' & Hrun & Hnx & Hfn & _ & Hfl).
  exists s'. repeat split; try assumption.
  apply (Hfl [5; 4]%Z ex_pool_free_list).
  intros Hin. apply elem_of_cons in Hin as [Hin|Hin]; [discriminate|].
  apply elem_of_cons in Hin as [Hin|Hin]; [discriminate|].
  by apply elem_of_nil in Hin.
Defined.

Lemma free_stack_then_push_witness :
  chain ex_pool 3 [3; 2; 1]%Z ∧ length [3; 2; 1]%Z ≤ 3 ∧
  ∃ s1 hs s2,
    free_stack 3 3 ex_pool = Some (end_, s1) ∧
    capacity s1 = 8 ∧
    push_each 0%Z grow_double [(7, 0); (8, 3); (9, 2)]%Z s1 = Some (hs, s2) ∧
    hs = [3; 2; 1]%Z ∧ size s2 = 5 ∧ capacity s2 = 8.
Proof.
  split; [exact ex_pool_stack|]. split; [simpl; lia|].
  apply (free_stack_then_push 0%Z grow_double 3 ex_pool 3%Z [3; 2; 1]%Z
           [(7, 0); (8, 3); (9, 2)]%Z ex_pool_stack); simpl; lia.
Defined.

Lemma free_list_invariant_witness :
  rtc (step 0%Z grow_double) stack_pool_new ex_s3 ∧
  ∃ fl, chain ex_s3 (free_nodes ex_s3) fl ∧ NoDup fl.
Proof.
  assert (rtc (step 0%Z grow_double) stack_pool_new ex_s3) as Hreach.
  { apply (rtc_l _ _ ex_s1).
    { apply (step_push _ _ _ 10%Z 0%Z 1%Z); reflexivity. }
    apply (rtc_l _ _ ex_s2).
    { apply (step_push _ _ _ 20%Z 1%Z 2%Z); reflexivity. }
    apply (rtc_l _ _ ex_s3); [|apply rtc_refl].
    apply (step_pop _ _ _ 2%Z [] 1%Z).
    - apply seg_nil.
    - handle_tac.
    - discriminate.
    - apply not_elem_of_nil.
    - reflexivity. }
  split; [exact Hreach|].
  destruct (free_list_invariant 0%Z grow_double) as (_ & _ & _ & _ & _ & Hinv).
  exact (Hinv ex_s3 Hreach).
Defined.

Lemma capacity_monotone_witness :
  (∀ c, c ≤ grow_double c) ∧
  run_ops 0%Z grow_double ex_session stack_pool_new = Some ((), ex_session_pool) ∧
  capacity (T:=Z) stack_pool_new ≤ capacity ex_session_pool ∧
  ∃ s', reserve 2 ex_pool = Some ((), s') ∧
        capacity ex_pool ≤ capacity s' ∧ 2 ≤ capacity s'.
Proof.
  split; [exact grow_double_ge|]. split; [reflexivity|].
  destruct (capacity_monotone 0%Z grow_double grow_double_ge) as [Hseq Hres].
  split.
  - apply (Hseq ex_session stack_pool_new ex_session_pool). reflexivity.
  - apply Hres.
Defined.

Lemma free_stack_frame_witness :
  chain ex_pool 3 ([3; 2] ++ [1])%Z ∧ length [3; 2]%Z ≤ 2 ∧
  ∃ s', free_stack 2 3 ex_pool = Some (end_, s') ∧
        (∀ x, value s' x = value ex_pool x) ∧
        (∀ x, is_handle x → x ≠ 1%Z → next s' x = next ex_pool x) ∧
        size s' = 5 ∧ capacity s' = 8.
Proof.
  split; [exact ex_pool_stack|]. split; [simpl; lia|].
  destruct (free_stack_frame 2 ex_pool 3%Z [3; 2]%Z 1%Z ex_pool_stack
              ltac:(simpl; lia))
    as (s' & Hrun & _ & _ & Hval & Hnext & _ & _ & Hsz & Hcap).
  exists s'. repeat split; assumption.
Defined.

(** Two cursors on node 2, one over each pool: [a = b] leaves [a] reading
    [ex_pool], where node 2 holds 20, not [ex_pool_b], where it holds 8. *)
Example assign_two_pools :
  let a := begin true 3%Z in
  let b := begin false 2%Z in
  deref ex_load b = Some 8%Z ∧
  deref ex_load (assign a b) = Some 20%Z ∧
  iter_eq (assign a b) b = true.
Proof. repeat split. Qed.

(** ** The operations on concrete inputs *)

(** The scenario of the specification's last section: the two traversals,
    the result of [free_stack], the handle the last [push] returns, and the
    capacity before and after the last [push]. *)
Example spec_scenario :
  ex_scenario = Some ([30; 20; 10]%Z, [20; 10]%Z, end_, 2%Z, 4, 4).
Proof. vm_compute. reflexivity. Qed.

(** Outside the contract there is no result: [pop] on the sentinel, a handle
    beyond the vector, a traversal that is cut short, and [free_stack] on a
    chain that never reaches the sentinel, whatever the bound. *)
Example pop_sentinel : pop end_ ex_pool = None.
Proof. reflexivity. Qed.

Example free_stack_out_of_range : free_stack 5 9 ex_pool = None.
Proof. reflexivity. Qed.

Example contents_short_fuel : contents 2 ex_pool 3 = None.
Proof. reflexivity. Qed.

Lemma free_stack_cycle fuel : free_stack fuel 1 ex_cycle = None.
Proof.
  assert (∀ cur, free_stack_loop fuel 1 cur (begin this 1%Z) ex_cycle = None)
    as Hloop.
  { induction fuel as [|fuel IH]; intros cur; [done|].
    cbn [free_stack_loop]. change (iter_neq _ _) with true. cbv iota.
    change (post_incr _ _) with (Some (begin this 1%Z, begin this 1%Z)).
    cbv iota beta. apply IH. }
  unfold free_stack. change (empty 1) with false. cbv iota.
  unfold mbind, M_bind, read.
  change (incr _ _) with (Some (begin this 1%Z)). cbv iota beta.
  by rewrite Hloop.
Qed.

(** ** The further properties at concrete pools *)

Lemma ex_pool_holds : holds ex_pool [3; 2; 1]%Z [30; 20; 10]%Z.
Proof. repeat constructor. Defined.

Lemma ex_pool_not_free x : x ∈ [3; 2; 1]%Z → x ∉ [5; 4]%Z.
Proof.
  intros Hx Hin.
  repeat (apply elem_of_cons in Hx as [->|Hx]);
    try (by apply elem_of_nil in Hx);
    repeat (apply elem_of_cons in Hin as [Hin|Hin]);
    try discriminate; by apply elem_of_nil in Hin.
Defined.

Lemma ex_pool_push :
  push 0%Z grow_double 99%Z 3 ex_pool = Some (5%Z, ex_pool_pushed).
Proof. vm_compute. reflexivity. Defined.

Lemma ex_pool_room : room ex_pool.
Proof. reflexivity. Defined.

Lemma push_top_witness :
  push_ref 0%Z grow_double (Element 3) 3 ex_pool
    = Some (5%Z, with_node ex_pool 5 {| value_ := 30%Z; next_ := 3 |} 4) ∧
  ∃ v, denotes ex_pool (Element 3) = Some v ∧
       value (with_node ex_pool 5 {| value_ := 30%Z; next_ := 3 |} 4) 5 = Some v ∧
       next (with_node ex_pool 5 {| value_ := 30%Z; next_ := 3 |} 4) 5 = Some 3%Z.
Proof.
  assert (push_ref 0%Z grow_double (Element 3) 3 ex_pool
          = Some (5%Z, with_node ex_pool 5 {| value_ := 30%Z; next_ := 3 |} 4))
    as Hrun by (vm_compute; reflexivity).
  split; [exact Hrun|].
  exact (push_top 0%Z grow_double (Element 3) 3%Z ex_pool 5%Z _ Hrun).
Defined.

Lemma push_pop_witness :
  push 0%Z grow_double 99%Z 3 ex_pool = Some (5%Z, ex_pool_pushed) ∧
  ∃ s2, pop 5 ex_pool_pushed = Some (3%Z, s2) ∧ free_nodes s2 = 5%Z ∧
        next s2 5 = Some 4%Z ∧ size s2 = 5 ∧ capacity s2 = 8.
Proof.
  split; [exact ex_pool_push|].
  destruct (push_pop 0%Z grow_double 99%Z 3%Z ex_pool 5%Z ex_pool_pushed
              ex_pool_push) as (s2 & Hpop & Hfn & Hnx & _ & Hsz & Hcap).
  exists s2. repeat split; assumption.
Defined.

Lemma push_not_empty_witness :
  room ex_pool ∧
  push 0%Z grow_double 99%Z 3 ex_pool = Some (5%Z, ex_pool_pushed) ∧
  5%Z ≠ end_ ∧ empty 5 = false.
Proof.
  split; [exact ex_pool_room|]. split; [exact ex_pool_push|].
  exact (push_not_empty 0%Z grow_double 99%Z 3%Z ex_pool 5%Z ex_pool_pushed
           ex_pool_room ex_pool_push).
Defined.

Lemma node_bounds_witness :
  (Z.of_nat (size ex_pool) < modulus)%Z ∧ is_handle end_ ∧ is_handle 6 ∧
  value ex_pool end_ = None ∧ next ex_pool end_ = None ∧
  pop end_ ex_pool = None ∧ pop 6 ex_pool = None.
Proof.
  assert (Z.of_nat (size ex_pool) < modulus)%Z as Hsz by reflexivity.
  assert (is_handle end_) as H0 by handle_tac.
  assert (is_handle 6) as H6 by handle_tac.
  split; [exact Hsz|]. split; [exact H0|]. split; [exact H6|].
  destruct (node_bounds ex_pool end_ Hsz H0) as [_ Hout0].
  destruct (node_bounds ex_pool 6%Z Hsz H6) as [_ Hout6].
  destruct Hout0 as (Hv & Hn & Hp); [unfold end_; lia|].
  destruct Hout6 as (_ & _ & Hp6).
  { intros [_ Hle]. change (6 ≤ 5)%Z in Hle. lia. }
  repeat split; assumption.
Defined.

Lemma size_monotone_witness :
  run_ops 0%Z grow_double ex_session stack_pool_new = Some ((), ex_session_pool) ∧
  size (T:=Z) stack_pool_new ≤ size ex_session_pool.
Proof.
  assert (run_ops 0%Z grow_double ex_session stack_pool_new
          = Some ((), ex_session_pool)) as Hrun by reflexivity.
  split; [exact Hrun|].
  exact (proj1 (size_monotone 0%Z grow_double ex_session stack_pool_new
                  ex_session_pool Hrun)).
Defined.

Lemma push_all_onto_witness :
  chain ex_pool 3 [3; 2; 1]%Z ∧ holds ex_pool [3; 2; 1]%Z [30; 20; 10]%Z ∧
  chain ex_pool (free_nodes ex_pool) [5; 4]%Z ∧
  ∃ h s', push_all_ref 0%Z grow_double (Outside <$> [1; 2; 3]%Z) 3 ex_pool
            = Some (h, s') ∧
          ∀ fuel, 6 ≤ fuel → contents fuel s' h = Some [3; 2; 1; 30; 20; 10]%Z.
Proof.
  split; [exact ex_pool_stack|]. split; [exact ex_pool_holds|].
  split; [exact ex_pool_free_list|].
  apply (push_all_onto 0%Z grow_double [1; 2; 3]%Z ex_pool 3%Z [3; 2; 1]%Z
           [30; 20; 10]%Z [5; 4]%Z ex_pool_stack ex_pool_holds
           ex_pool_free_list ex_pool_not_free).
  reflexivity.
Defined.

Lemma push_isolation_witness :
  chain ex_pool (free_nodes ex_pool) [5; 4]%Z ∧ room ex_pool ∧
  chain ex_pool 3 [3; 2; 1]%Z ∧ holds ex_pool [3; 2; 1]%Z [30; 20; 10]%Z ∧
  ∃ h s', push 0%Z grow_double 99%Z new_stack ex_pool = Some (h, s') ∧
          (h ∉ [3; 2; 1]%Z) ∧ chain s' 3 [3; 2; 1]%Z ∧
          ∀ fuel, 3 ≤ fuel → contents fuel s' 3 = Some [30; 20; 10]%Z.
Proof.
  split; [exact ex_pool_free_list|]. split; [exact ex_pool_room|].
  split; [exact ex_pool_stack|]. split; [exact ex_pool_holds|].
  exact (push_isolation 0%Z grow_double 99%Z new_stack ex_pool [5; 4]%Z 3%Z
           [3; 2; 1]%Z [30; 20; 10]%Z ex_pool_free_list ex_pool_room
           ex_pool_stack ex_pool_holds ex_pool_not_free).
Defined.

Lemma pop_stack_witness :
  chain ex_pool 3 [3; 2; 1]%Z ∧ holds ex_pool [3; 2; 1]%Z [30; 20; 10]%Z ∧
  ∃ nx s', pop 3 ex_pool = Some (nx, s') ∧
           ∀ fuel, 2 ≤ fuel → contents fuel s' nx = Some [20; 10]%Z.
Proof.
  split; [exact ex_pool_stack|]. split; [exact ex_pool_holds|].
  destruct (pop_stack ex_pool 3%Z [3; 2; 1]%Z 30%Z [20; 10]%Z ex_pool_stack
              ex_pool_holds) as (nx & s' & Hpop & Hcont & _).
  exists nx, s'. split; [exact Hpop|].
  intros fuel Hfuel. apply Hcont. simpl. lia.
Defined.

Lemma free_stack_isolation_witness :
  chain ex_pool 3 ([3; 2] ++ [1])%Z ∧ length [3; 2]%Z ≤ 2 ∧
  chain ex_pool 5 [5; 4]%Z ∧ holds ex_pool [5; 4]%Z [50; 40]%Z ∧
  (1%Z ∉ [5; 4]%Z) ∧
  ∃ s', free_stack 2 3 ex_pool = Some (end_, s') ∧ chain s' 5 [5; 4]%Z ∧
        ∀ fuel, 2 ≤ fuel → contents fuel s' 5 = Some [50; 40]%Z.
Proof.
  assert (holds ex_pool [5; 4]%Z [50; 40]%Z) as Hvs by repeat constructor.
  assert (1%Z ∉ [5; 4]%Z) as Hnot.
  { intros Hin. repeat (apply elem_of_cons in Hin as [Hin|Hin]);
      try discriminate. by apply elem_of_nil in Hin. }
  assert (length [3; 2]%Z ≤ 2) as Hlen by (simpl; lia).
  split; [exact ex_pool_stack|]. split; [exact Hlen|].
  split; [exact ex_pool_free_list|]. split; [exact Hvs|].
  split; [exact Hnot|].
  exact (free_stack_isolation 2 ex_pool 3%Z [3; 2]%Z 1%Z 5%Z [5; 4]%Z
           [50; 40]%Z ex_pool_stack Hlen ex_pool_free_list Hvs Hnot).
Defined.

Lemma free_stack_aliasing_witness :
  chain ex_shared 2 ([2] ++ [1])%Z ∧ chain ex_shared 3 [3; 1]%Z ∧
  chain ex_shared (free_nodes ex_shared) [4]%Z ∧
  ∃ s', free_stack 1 2 ex_shared = Some (end_, s') ∧
        chain s' 3 [3; 1; 4]%Z ∧
        chain s' (free_nodes s') [2; 1; 4]%Z.
Proof.
  assert (chain ex_shared 2 ([2] ++ [1])%Z) as HA by (unfold chain; chain_tac).
  assert (chain ex_shared 3 [3; 1]%Z) as HB by (unfold chain; chain_tac).
  assert (chain ex_shared (free_nodes ex_shared) [4]%Z) as HF
    by (unfold chain; chain_tac).
  split; [exact HA|]. split; [exact HB|]. split; [exact HF|].
  apply (free_stack_aliasing 1 ex_shared 2%Z [2]%Z 1%Z 3%Z [3; 1]%Z [4]%Z HA).
  - simpl. lia.
  - exact HB.
  - apply list_elem_of_further, list_elem_of_here.
  - exact HF.
  - intros Hin. apply elem_of_cons in Hin as [Hin|Hin]; [discriminate|].
    by apply elem_of_nil in Hin.
Defined.

Lemma pop_twice_witness :
  3%Z ≠ end_ ∧ is_Some (node ex_pool 3) ∧
  ∃ nx s1 s2 s3 s4,
    pop 3 ex_pool = Some (nx, s1) ∧
    pop 3 s1 = Some (5%Z, s2) ∧
    next s2 3 = Some 3%Z ∧
    ¬ free_list_ok s2 ∧
    push 0%Z grow_double 7%Z 0 s2 = Some (3%Z, s3) ∧
    push 0%Z grow_double 8%Z 0 s3 = Some (3%Z, s4).
Proof.
  assert (3%Z ≠ end_) as H0 by discriminate.
  assert (is_Some (node ex_pool 3)) as Hn by (eexists; reflexivity).
  split; [exact H0|]. split; [exact Hn|].
  exact (pop_twice 0%Z grow_double ex_pool 3%Z 7%Z 0%Z 8%Z 0%Z H0 Hn).
Defined.

Lemma free_stack_needs_chain_witness :
  typed ex_pool ∧ is_handle 3 ∧
  free_stack 2 3 ex_pool = Some (end_, ex_pool_freed) ∧
  ∃ l, chain ex_pool 3 l ∧ length l ≤ 3.
Proof.
  assert (typed ex_pool) as Hty
    by (unfold typed; simpl; repeat (constructor; [handle_tac|]); constructor).
  assert (is_handle 3) as Hh by handle_tac.
  assert (free_stack 2 3 ex_pool = Some (end_, ex_pool_freed)) as Hrun
    by (vm_compute; reflexivity).
  split; [exact Hty|]. split; [exact Hh|]. split; [exact Hrun|].
  exact (free_stack_needs_chain 2 ex_pool 3%Z end_ ex_pool_freed Hty Hh Hrun).
Defined.

Lemma set_value_stack_witness :
  chain ex_pool 3 [3; 2; 1]%Z ∧ holds ex_pool [3; 2; 1]%Z [30; 20; 10]%Z ∧
  [3; 2; 1]%Z !! 1 = Some 2%Z ∧
  ∃ s', set_value 2 77%Z ex_pool = Some ((), s') ∧
        free_nodes s' = 5%Z ∧ chain s' 3 [3; 2; 1]%Z ∧
        ∀ fuel, 3 ≤ fuel → contents fuel s' 3 = Some [30; 77; 10]%Z.
Proof.
  split; [exact ex_pool_stack|]. split; [exact ex_pool_holds|].
  split; [reflexivity|].
  exact (set_value_stack ex_pool 3%Z [3; 2; 1]%Z [30; 20; 10]%Z 1 2%Z 77%Z
           ex_pool_stack ex_pool_holds eq_refl).
Defined.

Lemma push_within_capacity_witness :
  free_nodes ex_spare = end_ ∧
  size ex_spare + length [20; 30; 40]%Z ≤ capacity ex_spare ∧
  (Z.of_nat (capacity ex_spare) < modulus)%Z ∧
  ∃ h s', push_all_ref 0%Z grow_double (Outside <$> [20; 30; 40]%Z) 1 ex_spare
            = Some (h, s') ∧
          capacity s' = 4 ∧ size s' = 4 ∧ free_nodes s' = end_ ∧ h = 4%Z.
Proof.
  assert (free_nodes ex_spare = end_) as Hfn by reflexivity.
  assert (size ex_spare + length [20; 30; 40]%Z ≤ capacity ex_spare) as Hcap
    by (vm_compute; lia).
  assert (Z.of_nat (capacity ex_spare) < modulus)%Z as Hmod by reflexivity.
  split; [exact Hfn|]. split; [exact Hcap|]. split; [exact Hmod|].
  destruct (push_within_capacity 0%Z grow_double [20; 30; 40]%Z ex_spare 1%Z
              Hfn Hcap Hmod) as (h & s' & Hrun & Hc & Hs & Hf & Hh).
  exists h, s'. split; [exact Hrun|]. split; [exact Hc|]. split; [exact Hs|].
  split; [exact Hf|]. rewrite Hh, Hs; [reflexivity | discriminate].
Defined.

Lemma push_each_alloc_witness :
  chain ex_pool (free_nodes ex_pool) [5; 4]%Z ∧
  ∃ hs s', push_each 0%Z grow_double [(7, 0); (8, 0); (9, 0)]%Z ex_pool
             = Some (hs, s') ∧
           hs = [5; 4; 6]%Z ∧ size s' = 6 ∧
           chain s' (free_nodes s') [].
Proof.
  split; [exact ex_pool_free_list|].
  apply (push_each_alloc 0%Z grow_double [(7, 0); (8, 0); (9, 0)]%Z ex_pool
           [5; 4]%Z ex_pool_free_list).
  reflexivity.
Defined.

Lemma traverse_range_witness :
  ex_load true = Some ex_pool ∧ seg ex_pool 3 [3; 2]%Z 1 ∧
  (1%Z ∉ [3; 2]%Z) ∧ holds ex_pool [3; 2]%Z [30; 20]%Z ∧
  traverse ex_load 2 (begin true 3%Z) (begin false 1%Z) = Some [30; 20]%Z.
Proof.
  assert (seg ex_pool 3 [3; 2]%Z 1) as Hseg by chain_tac.
  assert (1%Z ∉ [3; 2]%Z) as Hnot.
  { intros Hin. repeat (apply elem_of_cons in Hin as [Hin|Hin]);
      try discriminate. by apply elem_of_nil in Hin. }
  assert (holds ex_pool [3; 2]%Z [30; 20]%Z) as Hvs by repeat constructor.
  split; [reflexivity|]. split; [exact Hseg|]. split; [exact Hnot|].
  split; [exact Hvs|].
  apply (traverse_range bool ex_load true false ex_pool 3%Z [3; 2]%Z 1%Z
           [30; 20]%Z 2 eq_refl Hseg Hnot Hvs).
  simpl. lia.
Defined.

Lemma push_ref_dangling_witness :
  free_nodes ex_s2 = end_ ∧ capacity ex_s2 ≤ size ex_s2 ∧
  denotes ex_s2 (Element 2) = Some 20%Z ∧
  push_ref 0%Z grow_double (Element 2) 2 ex_s2 = None.
Proof.
  assert (free_nodes ex_s2 = end_) as Hfn by reflexivity.
  assert (capacity ex_s2 ≤ size ex_s2) as Hfull by (vm_compute; lia).
  split; [exact Hfn|]. split; [exact Hfull|]. split; [reflexivity|].
  exact (push_ref_dangling 0%Z grow_double 2%Z 2%Z ex_s2 Hfn Hfull).
Defined.

Lemma push_ref_onto_witness :
  chain ex_pool 3 [3; 2; 1]%Z ∧ holds ex_pool [3; 2; 1]%Z [30; 20; 10]%Z ∧
  chain ex_pool (free_nodes ex_pool) [5; 4]%Z ∧ room ex_pool ∧
  denotes ex_pool (Element 3) = Some 30%Z ∧
  dangling ex_pool (Element 3) = false ∧
  ∃ h s', push_ref 0%Z grow_double (Element 3) 3 ex_pool = Some (h, s') ∧
          ∀ fuel, 3 < fuel → contents fuel s' h = Some [30; 30; 20; 10]%Z.
Proof.
  split; [exact ex_pool_stack|]. split; [exact ex_pool_holds|].
  split; [exact ex_pool_free_list|]. split; [exact ex_pool_room|].
  split; [reflexivity|]. split; [reflexivity|].
  exact (push_ref_onto 0%Z grow_double (Element 3) 30%Z 3%Z ex_pool
           [3; 2; 1]%Z [30; 20; 10]%Z [5; 4]%Z ex_pool_stack ex_pool_holds
           ex_pool_free_list ex_pool_not_free ex_pool_room eq_refl eq_refl).
Defined.

(** ** The defect in [_push] *)

(** C1. The claim fails on the code at a call whose argument is an element
    of the pool. On a fresh pool [h1 = push(10, new_stack())] returns handle
    1 and leaves a vector of size and capacity 1. [push(value(h1), h1)] then
    finds the free list empty, [push_back] (line 84) reallocates the full
    vector, and line 90 reads [val], a reference into the released storage:
    the call has no defined result, where last-in-first-out order asks for a
    stack that yields 10, 10. The same call with an argument that holds 10
    outside the vector returns a stack that does. *)
Theorem push_alias_failing_input :
  push_ref 0%Z grow_double (Outside 10%Z) new_stack stack_pool_new
    = Some (1%Z, ex_s1) ∧
  capacity ex_s1 = 1 ∧ size ex_s1 = 1 ∧
  denotes ex_s1 (Element 1) = Some 10%Z ∧
  push_ref 0%Z grow_double (Element 1) 1 ex_s1 = None ∧
  push_ref 0%Z grow_double (Outside 10%Z) 1 ex_s1 = Some (2%Z, ex_s1_twice) ∧
  contents 2 ex_s1_twice 2 = Some [10; 10]%Z.
Proof.
  split; [vm_compute; reflexivity|]. split; [reflexivity|].
  split; [reflexivity|]. split; [vm_compute; reflexivity|].
  split; [vm_compute; reflexivity|].
  split; vm_compute; reflexivity.
Qed.
